(** * Frame loops of the Nexus engine Python layer

    A shallow embedding of the three hand-written frame loops of the
    repository and of the game code they drive:

    - [examples/basic_demo.py]: the demo loop ([demo_time] accumulation,
      30 second exit, fixed 16 ms delay);
    - [examples/python/platformer_game.py]: [Player], [PlatformerGame] and
      [main] (delta time from [time.time()], update, render, FPS limiter);
    - [build/bin/nexus_api.py]: [Scene] and [GameApplication]
      ([initialize], [run], [shutdown]).

    Numbers.  Python [float] values are idealised as exact rationals [Q];
    Python [int] values are [Z].  Rounding, infinities and NaN are outside
    the model.

    Effects.  The native engine, the [time] module and the console are the
    outside world.  The code is written in a state-and-exception monad over
    an abstract world [W] whose operations form the class [Host]; every
    call that crosses the boundary is recorded, with its result, in a
    chronological trace.  [while] loops take a fuel argument; running out
    of fuel (or a host call that never returns) is the outcome [Diverge]. *)

From Stdlib Require Import QArith ZArith List Bool String Lia Lqa.
Import ListNotations.

Open Scope Q_scope.

(** ** Numbers *)

Definition Qlt_bool (x y : Q) : bool := negb (Qle_bool y x).

(** Python's [max(a, b)]: the first argument unless the second is
    strictly larger. *)
Definition py_max (a b : Q) : Q := if Qlt_bool a b then b else a.

(** Python's [int(x)] on a float: truncation toward zero. *)
Definition py_int (x : Q) : Z := Z.quot (Qnum x) (Z.pos (Qden x)).

(** ** Exceptions and outcomes *)

Inductive exn : Type :=
| ImportError
| RuntimeError (msg : string)
| ValueError
| KeyboardInterrupt
| SystemExit (code : Z)
| UserError (tag : nat).

(** [isinstance(e, Exception)]: [KeyboardInterrupt] and [SystemExit]
    derive from [BaseException] only. *)
Definition is_Exception (e : exn) : bool :=
  match e with
  | KeyboardInterrupt | SystemExit _ => false
  | _ => true
  end.

Definition is_KeyboardInterrupt (e : exn) : bool :=
  match e with
  | KeyboardInterrupt => true
  | _ => false
  end.

Inductive outcome (A : Type) : Type :=
| Ret (a : A)
| Raise (e : exn)
| Diverge.

Arguments Ret {A} a.
Arguments Raise {A} e.
Arguments Diverge {A}.

(** ** Data of the game code *)

Module Vector3.
Record t : Type := mk { x : Q; y : Q; z : Q }.
End Vector3.

Definition Color : Type := (Q * Q * Q * Q)%type.

(** The object returned by [engine.get_input()], as far as the game
    queries it. *)
Record InputManager : Type := mkInput {
  is_key_down : Z -> bool;
  is_key_pressed : Z -> bool
}.

(** [ord('A')], [ord('D')], [ord(' ')]. *)
Definition ord_A : Z := 65%Z.
Definition ord_D : Z := 68%Z.
Definition ord_space : Z := 32%Z.

(** What is printed or drawn as text; formatted numbers are kept as
    numbers. *)
Inductive message : Type :=
| Text (s : string)
| FpsLine (fps demo_time : Q) (frame : Z)
| ScoreLine (score : Z)
| TimeLine (game_time : Q)
| PositionLine (x y : Q)
| StartingLine (title : string)
| ImportErrorLine (e : exn)
| DemoErrorLine (e : exn).

(** Calls on the graphics object. *)
Inductive gfx_cmd : Type :=
| begin_frame
| end_frame
| present
| clear (r g b a : Q)
| draw_cube (position size : Vector3.t) (color : Color)
| draw_text (m : message) (x y : Z) (color : Color)
| enable_bloom (on : bool)
| enable_shadows (on : bool)
| set_bloom_threshold (v : Q)
| set_bloom_intensity (v : Q).

(** Who is being updated or rendered. *)
Inductive callee : Type :=
| TheGame
| TheApp
| SceneObject (name : string).

(** ** The trace *)

Inductive event : Type :=
| Imported
| EngineNew
| EngineInit (ok : bool)
| IsRunning (b : bool)
| DeltaTime (dt : Q)
| EngineShutdown
| GetInput
| GetGraphics
| Gfx (c : gfx_cmd)
| Clock (t : Q)
| Sleep (d : Q)
| Print (m : message)
| Tick (delta_time accumulated : Q)
| Update (who : callee) (dt : Q)
| Render (who : callee).

(** ** The host interface *)

Class Host (W : Type) : Type := {
  import_nexus_engine : W -> outcome unit * W;
  engine_new : W -> outcome unit * W;
  engine_initialize : W -> outcome bool * W;
  engine_is_running : W -> outcome bool * W;
  engine_get_delta_time : W -> outcome Q * W;
  engine_shutdown : W -> outcome unit * W;
  engine_get_input : W -> outcome InputManager * W;
  engine_get_graphics : W -> outcome unit * W;
  graphics_call : gfx_cmd -> W -> outcome unit * W;
  time_time : W -> outcome Q * W;
  time_sleep : Q -> W -> outcome unit * W
}.

(** ** The monad *)

Record state (W : Type) : Type := mkState {
  world : W;
  trace : list event
}.

Arguments mkState {W} world trace.
Arguments world {W} s.
Arguments trace {W} s.

Definition M (W A : Type) : Type := state W -> outcome A * state W.

Definition ret {W A} (a : A) : M W A := fun s => (Ret a, s).

Definition bind {W A B} (m : M W A) (f : A -> M W B) : M W B :=
  fun s =>
    match m s with
    | (Ret a, s') => f a s'
    | (Raise e, s') => (Raise e, s')
    | (Diverge, s') => (Diverge, s')
    end.

Definition raise {W A} (e : exn) : M W A := fun s => (Raise e, s).

Definition diverge {W A} : M W A := fun s => (Diverge, s).

(** [try: m  except <filter>: handler]. *)
Definition try_except {W A} (m : M W A) (catches : exn -> bool)
           (handler : exn -> M W A) : M W A :=
  fun s =>
    match m s with
    | (Raise e, s') => if catches e then handler e s' else (Raise e, s')
    | r => r
    end.

Definition emit {W} (e : event) : M W unit :=
  fun s => (Ret tt, mkState (world s) (trace s ++ [e])).

(** A call into the host; its result is logged when it returns. *)
Definition call {W A} (op : W -> outcome A * W) (ev : A -> event) : M W A :=
  fun s =>
    match op (world s) with
    | (Ret a, w) => (Ret a, mkState w (trace s ++ [ev a]))
    | (Raise e, w) => (Raise e, mkState w (trace s))
    | (Diverge, w) => (Diverge, mkState w (trace s))
    end.

Declare Scope monad_scope.
Delimit Scope monad_scope with monad.
Notation "x <- m ;; k" := (bind m (fun x => k))
  (at level 61, m at next level, right associativity) : monad_scope.
Notation "m ;; k" := (bind m (fun _ => k))
  (at level 61, right associativity) : monad_scope.
Open Scope monad_scope.

Definition print {W} (m : message) : M W unit := emit (Print m).

Fixpoint print_lines {W} (ls : list string) : M W unit :=
  match ls with
  | [] => ret tt
  | l :: ls' => print (Text l) ;; print_lines ls'
  end.

(** Running a computation from a world with an empty trace. *)
Definition run_from {W A} (m : M W A) (w : W) : outcome A * state W :=
  m (mkState w []).

Definition result_of {W A} (r : outcome A * state W) : outcome A := fst r.
Definition history_of {W A} (r : outcome A * state W) : list event :=
  trace (snd r).

(** ** [examples/basic_demo.py] *)

Module BasicDemo.

Record locals : Type := mkLocals {
  last_time : Q;
  demo_time : Q;
  frame_count : Z
}.

Definition banner : list string :=
  [ "Demo Features:"; "- Enhanced Normal Mapping";
    "- Physically-Based Rendering (PBR)"; "- Advanced Bloom Effects";
    "- Heat Haze Distortion"; "- Screen-Space Ambient Occlusion";
    "- Unified Shadow System"; "- Multi-light Setup"; EmptyString;
    "Press ESC to exit the demo"; "Controls:"; "- Mouse: Look around";
    "- WASD: Move camera"; "- Space: Toggle effects"; EmptyString ]%string.

Section Loop.
Context {W : Type} `{Host W}.

(** The literals [30.0] (line 69) and [0.016] (line 74) are parameters
    here; [demo_loop] below is the loop at the source's values.
    The animated values of lines 55-57 are computed and dropped by the
    source and have no counterpart. *)
Variable max_duration : Q.
Variable frame_delay : Q.

(** One pass through the body of [while True]; [true] stands for
    [break]. *)
Definition demo_body (l : locals) : M W (bool * locals) :=
  current_time <- call time_time Clock ;;
  let delta_time := current_time - last_time l in
  let last_time' := current_time in
  let demo_time' := demo_time l + delta_time in
  let frame_count' := (frame_count l + 1)%Z in
  let l' := mkLocals last_time' demo_time' frame_count' in
  emit (Tick delta_time demo_time') ;;
  (if (frame_count' mod 60 =? 0)%Z
   then
     let fps := if Qlt_bool 0 delta_time then 1 / delta_time else 0 in
     print (FpsLine fps demo_time' frame_count')
   else ret tt) ;;
  if Qlt_bool max_duration demo_time'
  then print (Text "Demo completed successfully!") ;; ret (true, l')
  else call (time_sleep frame_delay) (fun _ => Sleep frame_delay) ;;
       ret (false, l').

Fixpoint demo_loop_with (fuel : nat) (l : locals) : M W locals :=
  match fuel with
  | O => diverge
  | S fuel' =>
      r <- demo_body l ;;
      if fst r then ret (snd r) else demo_loop_with fuel' (snd r)
  end.

End Loop.

Section Script.
Context {W : Type} `{Host W}.

Definition demo_loop : nat -> locals -> M W locals :=
  demo_loop_with 30 (16 # 1000).

(** The body of the [try] block, with the loop's settings left open. *)
Definition demo_script_with (max_duration frame_delay : Q) (fuel : nat)
  : M W locals :=
  call import_nexus_engine (fun _ => Imported) ;;
  print (Text "=== Nexus Engine Python Demo ===") ;;
  print (Text "Loading enhanced graphics demo...") ;;
  call engine_new (fun _ => EngineNew) ;;
  let demo_time0 := 0 in
  print_lines banner ;;
  last_time0 <- call time_time Clock ;;
  let frame_count0 := 0%Z in
  demo_loop_with max_duration frame_delay fuel
                 (mkLocals last_time0 demo_time0 frame_count0).

(** The two [except] clauses: both print and leave with
    [sys.exit(1)]. *)
Definition demo_handlers {A} (e : exn) : M W A :=
  match e with
  | ImportError =>
      print (ImportErrorLine e) ;;
      print (Text "Make sure the engine is built and the Python bindings are available.") ;;
      raise (SystemExit 1)
  | _ => print (DemoErrorLine e) ;; raise (SystemExit 1)
  end.

Definition basic_demo_with (max_duration frame_delay : Q) (fuel : nat)
  : M W locals :=
  try_except (demo_script_with max_duration frame_delay fuel)
             is_Exception demo_handlers.

Definition basic_demo : nat -> M W locals := basic_demo_with 30 (16 # 1000).

End Script.

End BasicDemo.

(** ** Calling out of the monad *)

Section Calls.
Context {W : Type} `{Host W}.

Definition gfx (c : gfx_cmd) : M W unit :=
  call (graphics_call c) (fun _ => Gfx c).

Definition get_graphics : M W unit :=
  call engine_get_graphics (fun _ => GetGraphics).

(** User code (an overridden method): it acts on the world directly and
    leaves no record of its own. *)
Definition invoke {A} (cb : W -> outcome A * W) : M W A :=
  fun s => let (o, w) := cb (world s) in (o, mkState w (trace s)).

End Calls.

(** [range(start, stop, step)] for a positive step. *)
Definition py_range (start stop step : Z) : list Z :=
  map (fun k => (start + step * Z.of_nat k)%Z)
      (seq 0 (Z.to_nat ((stop - start + step - 1) / step))).

(** ** [examples/python/platformer_game.py] *)

Module Player.

Record t : Type := mk {
  position : Vector3.t;
  velocity : Vector3.t;
  size : Vector3.t;
  on_ground : bool;
  speed : Q;
  jump_force : Q
}.

Definition init : t :=
  mk (Vector3.mk 0 0 0) (Vector3.mk 0 0 0) (Vector3.mk 1 1 1) false 8 12.

Definition set_velocity_x (v : Q) (self : t) : t :=
  mk (position self)
     (Vector3.mk v (Vector3.y (velocity self)) (Vector3.z (velocity self)))
     (size self) (on_ground self) (speed self) (jump_force self).

Definition set_velocity_y (v : Q) (self : t) : t :=
  mk (position self)
     (Vector3.mk (Vector3.x (velocity self)) v (Vector3.z (velocity self)))
     (size self) (on_ground self) (speed self) (jump_force self).

Definition set_on_ground (b : bool) (self : t) : t :=
  mk (position self) (velocity self) (size self) b (speed self)
     (jump_force self).

Definition set_position (p : Vector3.t) (self : t) : t :=
  mk p (velocity self) (size self) (on_ground self) (speed self)
     (jump_force self).

(** Lines 21-26. *)
Definition horizontal_movement (input_manager : InputManager) (self : t) : t :=
  if is_key_down input_manager ord_A
  then set_velocity_x (- speed self) self
  else if is_key_down input_manager ord_D
       then set_velocity_x (speed self) self
       else set_velocity_x (Vector3.x (velocity self) * (8 # 10)) self.

(** Lines 29-31. *)
Definition jumping (input_manager : InputManager) (self : t) : t :=
  if is_key_pressed input_manager ord_space && on_ground self
  then set_on_ground false (set_velocity_y (jump_force self) self)
  else self.

(** Line 34. *)
Definition gravity (delta_time : Q) (self : t) : t :=
  set_velocity_y (Vector3.y (velocity self) - 25 * delta_time) self.

(** Lines 37-38. *)
Definition move (delta_time : Q) (self : t) : t :=
  let p := position self in
  let v := velocity self in
  set_position
    (Vector3.mk (Vector3.x p + Vector3.x v * delta_time)
                (Vector3.y p + Vector3.y v * delta_time)
                (Vector3.z p))
    self.

(** The test of line 41. *)
Definition touches_ground (self : t) : bool :=
  Qle_bool (Vector3.y (position self)) 0.

(** Lines 41-44. *)
Definition ground_collision (self : t) : t :=
  if touches_ground self
  then
    let p := position self in
    set_on_ground true
      (set_velocity_y 0
         (set_position (Vector3.mk (Vector3.x p) 0 (Vector3.z p)) self))
  else self.

(** The player as it reaches the ground test of line 41. *)
Definition before_collision (delta_time : Q) (input_manager : InputManager)
           (self : t) : t :=
  move delta_time
    (gravity delta_time
       (jumping input_manager (horizontal_movement input_manager self))).

Definition update (delta_time : Q) (input_manager : InputManager) (self : t)
  : t :=
  ground_collision (before_collision delta_time input_manager self).

Definition render {W} `{Host W} (self : t) : M W unit :=
  gfx (draw_cube (position self) (size self) (1, 5 # 10, 0, 1)).

End Player.

Module Platform.

Record t : Type := mk {
  position : Vector3.t;
  size : Vector3.t
}.

Definition init (x y z width height depth : Q) : t :=
  mk (Vector3.mk x y z) (Vector3.mk width height depth).

Definition render {W} `{Host W} (self : t) : M W unit :=
  gfx (draw_cube (position self) (size self) (5 # 10, 5 # 10, 5 # 10, 1)).

End Platform.

Module PlatformerGame.

Record t : Type := mk {
  player : Player.t;
  platforms : list Platform.t;
  camera_offset : Vector3.t;
  score : Z;
  game_time : Q
}.

Definition create_level (self : t) : t :=
  let ground :=
    map (fun i => Platform.init (inject_Z i) (-2) 0 4 1 4)
        (py_range (-20) 21 4) in
  let floating :=
    [ Platform.init 8 3 0 4 (1 # 2) 4;
      Platform.init 16 6 0 4 (1 # 2) 4;
      Platform.init (-8) 4 0 4 (1 # 2) 4;
      Platform.init (-16) 7 0 4 (1 # 2) 4 ] in
  mk (player self) (platforms self ++ ground ++ floating)
     (camera_offset self) (score self) (game_time self).

Definition init : t :=
  create_level (mk Player.init [] (Vector3.mk 0 5 (-10)) 0%Z 0).

(** The test of line 94. *)
Definition player_fell (p : Player.t) : bool :=
  Qlt_bool (Vector3.y (Player.position p)) (-10).

(** Lines 95-96. *)
Definition respawn (p : Player.t) : Player.t :=
  Player.mk (Vector3.mk 0 0 0) (Vector3.mk 0 0 0) (Player.size p)
            (Player.on_ground p) (Player.speed p) (Player.jump_force p).

Section Methods.
Context {W : Type} `{Host W}.

Definition update (delta_time : Q) (self : t) : M W t :=
  let game_time' := game_time self + delta_time in
  emit (Tick delta_time game_time') ;;
  input_manager <- call engine_get_input (fun _ => GetInput) ;;
  let player1 := Player.update delta_time input_manager (player self) in
  let height_score :=
    Z.max 0 (py_int (Vector3.y (Player.position player1) * 10)) in
  let score' := Z.max (score self) height_score in
  let player2 := if player_fell player1 then respawn player1 else player1 in
  ret (mk player2 (platforms self) (camera_offset self) score' game_time').

Fixpoint render_platforms (ps : list Platform.t) : M W unit :=
  match ps with
  | [] => ret tt
  | platform :: ps' => Platform.render platform ;; render_platforms ps'
  end.

Definition white : Color := (1, 1, 1, 1).

Definition render_ui (self : t) : M W unit :=
  gfx (draw_text (ScoreLine (score self)) 10 10 white) ;;
  gfx (draw_text (TimeLine (game_time self)) 10 30 white) ;;
  gfx (draw_text (Text "A/D: Move, Space: Jump") 10 50 white) ;;
  let pos := Player.position (player self) in
  gfx (draw_text (PositionLine (Vector3.x pos) (Vector3.y pos)) 10 70 white).

Definition render (self : t) : M W unit :=
  get_graphics ;;
  gfx (clear (4 # 10) (6 # 10) 1 1) ;;
  render_platforms (platforms self) ;;
  Player.render (player self) ;;
  render_ui self.

End Methods.

End PlatformerGame.

Module PlatformerMain.

Section Main.
Context {W : Type} `{Host W}.

(** One pass through the body of [while game_engine.is_running()]
    (lines 149-165). *)
Definition main_body (clock : Q) (game : PlatformerGame.t)
  : M W (Q * PlatformerGame.t) :=
  current_time <- call time_time Clock ;;
  let delta_time := current_time - clock in
  let clock' := current_time in
  emit (Update TheGame delta_time) ;;
  game' <- PlatformerGame.update delta_time game ;;
  get_graphics ;;
  gfx begin_frame ;;
  emit (Render TheGame) ;;
  PlatformerGame.render game' ;;
  gfx end_frame ;;
  gfx present ;;
  let pause := py_max 0 ((1 # 60) - delta_time) in
  call (time_sleep pause) (fun _ => Sleep pause) ;;
  ret (clock', game').

Fixpoint main_loop (fuel : nat) (clock : Q) (game : PlatformerGame.t)
  : M W (Q * PlatformerGame.t) :=
  match fuel with
  | O => diverge
  | S fuel' =>
      running <- call engine_is_running IsRunning ;;
      if running
      then r <- main_body clock game ;; main_loop fuel' (fst r) (snd r)
      else ret (clock, game)
  end.

Definition main (fuel : nat) : M W unit :=
  print (Text "Starting Python Platformer Game...") ;;
  call engine_new (fun _ => EngineNew) ;;
  ok <- call engine_initialize EngineInit ;;
  if negb ok
  then print (Text "Failed to initialize engine!") ;; ret tt
  else
    print (Text "Engine initialized successfully!") ;;
    let game := PlatformerGame.init in
    print (Text "Game created! Use A/D to move, Space to jump, ESC to quit.") ;;
    clock <- call time_time Clock ;;
    try_except (main_loop fuel clock game ;; ret tt)
               is_KeyboardInterrupt
               (fun _ => print (Text "Game interrupted by user")) ;;
    call engine_shutdown (fun _ => EngineShutdown) ;;
    print (Text "Game ended. Thanks for playing!").

End Main.

End PlatformerMain.

(** ** [build/bin/nexus_api.py] *)

Module GameObject.

Record t : Type := mk {
  name : string;
  position : list Q;
  rotation : list Q;
  scale : list Q;
  active : bool
}.

Definition init (name : string) : t :=
  mk name [0; 0; 0] [0; 0; 0] [1; 1; 1] true.

End GameObject.

Module Scene.

Record t : Type := mk {
  name : string;
  objects : list GameObject.t
}.

Definition init (name : string) : t := mk name [].


End Scene.

Module GameApplication.

Record t : Type := mk {
  title : string;
  width : Z;
  height : Z;
  current_scene : option Scene.t;
  running : bool
}.

Definition init (title : string) (width height : Z) : t :=
  mk title width height None false.

Definition set_running (b : bool) (self : t) : t :=
  mk (title self) (width self) (height self) (current_scene self) b.

Definition set_scene (scene : option Scene.t) (self : t) : t :=
  mk (title self) (width self) (height self) scene (running self).

(** The methods a game overrides: [GameObject.update] and
    [GameObject.render] of the scene's objects, and
    [GameApplication.update] and [GameApplication.render].  Each works on
    its own object and on the world, and may raise. *)
Record Overrides (W : Type) : Type := mkOverrides {
  object_update : GameObject.t -> Q -> W -> outcome GameObject.t * W;
  object_render : GameObject.t -> W -> outcome GameObject.t * W;
  app_update : Q -> t -> W -> outcome t * W;
  app_render : t -> W -> outcome t * W
}.

Arguments object_update {W} o.
Arguments object_render {W} o.
Arguments app_update {W} o.
Arguments app_render {W} o.

(** The base classes: every method is [pass]. *)
Definition defaults {W} : Overrides W :=
  mkOverrides W
    (fun obj _ w => (Ret obj, w))
    (fun obj w => (Ret obj, w))
    (fun _ self w => (Ret self, w))
    (fun self w => (Ret self, w)).

Section Methods.
Context {W : Type} `{Host W}.
Variable code : Overrides W.

(** [Scene.update]. *)
Fixpoint scene_update_objects (delta_time : Q) (objs : list GameObject.t)
  : M W (list GameObject.t) :=
  match objs with
  | [] => ret []
  | obj :: rest =>
      obj' <- (if GameObject.active obj
               then emit (Update (SceneObject (GameObject.name obj)) delta_time) ;;
                    invoke (object_update code obj delta_time)
               else ret obj) ;;
      rest' <- scene_update_objects delta_time rest ;;
      ret (obj' :: rest')
  end.

Definition scene_update (delta_time : Q) (scene : Scene.t) : M W Scene.t :=
  objs <- scene_update_objects delta_time (Scene.objects scene) ;;
  ret (Scene.mk (Scene.name scene) objs).

(** [Scene.render]. *)
Fixpoint scene_render_objects (objs : list GameObject.t)
  : M W (list GameObject.t) :=
  match objs with
  | [] => ret []
  | obj :: rest =>
      obj' <- (if GameObject.active obj
               then emit (Render (SceneObject (GameObject.name obj))) ;;
                    invoke (object_render code obj)
               else ret obj) ;;
      rest' <- scene_render_objects rest ;;
      ret (obj' :: rest')
  end.

Definition scene_render (scene : Scene.t) : M W Scene.t :=
  objs <- scene_render_objects (Scene.objects scene) ;;
  ret (Scene.mk (Scene.name scene) objs).

Definition initialize (self : t) : M W (bool * t) :=
  ok <- call engine_initialize EngineInit ;;
  if negb ok
  then raise (RuntimeError "Failed to initialize Nexus Engine")
  else
    get_graphics ;;
    gfx (enable_bloom true) ;;
    gfx (enable_shadows true) ;;
    gfx (set_bloom_threshold (8 # 10)) ;;
    gfx (set_bloom_intensity (12 # 10)) ;;
    ret (true, set_running true self).

Definition shutdown (self : t) : M W t :=
  let self' := set_running false self in
  call engine_shutdown (fun _ => EngineShutdown) ;;
  print (Text "Game shutdown complete") ;;
  ret self'.

(** Lines 97-98 and 104-106: the current scene, when there is one. *)
Definition update_current_scene (delta_time : Q) (self : t) : M W t :=
  match current_scene self with
  | Some scene =>
      scene' <- scene_update delta_time scene ;;
      ret (set_scene (Some scene') self)
  | None => ret self
  end.

Definition render_current_scene (self : t) : M W t :=
  match current_scene self with
  | Some scene =>
      get_graphics ;;
      scene' <- scene_render scene ;;
      ret (set_scene (Some scene') self)
  | None => ret self
  end.

(** Lines 101 and 109: [self.update(delta_time)] and [self.render()]. *)
Definition custom_update (delta_time : Q) (self : t) : M W t :=
  emit (Update TheApp delta_time) ;;
  invoke (app_update code delta_time self).

Definition custom_render (self : t) : M W t :=
  emit (Render TheApp) ;;
  invoke (app_render code self).

(** One pass through the body of the main loop (lines 94-112). *)
Definition run_body (self : t) : M W t :=
  delta_time <- call engine_get_delta_time DeltaTime ;;
  self1 <- update_current_scene delta_time self ;;
  self2 <- custom_update delta_time self1 ;;
  self3 <- render_current_scene self2 ;;
  self4 <- custom_render self3 ;;
  call (time_sleep (1 # 1000)) (fun _ => Sleep (1 # 1000)) ;;
  ret self4.

Fixpoint run_loop (fuel : nat) (self : t) : M W t :=
  match fuel with
  | O => diverge
  | S fuel' =>
      engine_running <- call engine_is_running IsRunning ;;
      if engine_running && running self
      then self' <- run_body self ;; run_loop fuel' self'
      else ret self
  end.

(** Lines 86-88: [initialize] is called when the application is not
    running yet. *)
Definition run_entry (self : t) : M W (bool * t) :=
  if negb (running self) then initialize self else ret (true, self).

Definition run (fuel : nat) (self : t) : M W (bool * t) :=
  r <- run_entry self ;;
  if negb (fst r)
  then ret (false, snd r)
  else
    let self := snd r in
    print (StartingLine (title self)) ;;
    self' <- run_loop fuel self ;;
    self'' <- shutdown self' ;;
    ret (true, self'').

End Methods.

End GameApplication.

(** ** A scripted host

    The outside world as a script: the successive answers of
    [time.time()], of [engine.is_running()] and of
    [engine.get_delta_time()], the keyboard, and whether the engine
    initialises.  A script that has run out never answers. *)

Module Scripted.

Record world : Type := mk {
  readings : list Q;
  running_answers : list bool;
  delta_answers : list Q;
  keyboard : InputManager;
  init_ok : bool
}.

Definition no_keys : InputManager := mkInput (fun _ => false) (fun _ => false).

Definition clock_only (rs : list Q) : world := mk rs [] [] no_keys true.

Definition pop_reading (w : world) : outcome Q * world :=
  match readings w with
  | [] => (Diverge, w)
  | r :: rs =>
      (Ret r, mk rs (running_answers w) (delta_answers w) (keyboard w) (init_ok w))
  end.

Definition pop_running (w : world) : outcome bool * world :=
  match running_answers w with
  | [] => (Diverge, w)
  | b :: bs =>
      (Ret b, mk (readings w) bs (delta_answers w) (keyboard w) (init_ok w))
  end.

Definition pop_delta (w : world) : outcome Q * world :=
  match delta_answers w with
  | [] => (Diverge, w)
  | d :: ds =>
      (Ret d, mk (readings w) (running_answers w) ds (keyboard w) (init_ok w))
  end.

#[global] Instance host : Host world := {
  import_nexus_engine w := (Ret tt, w);
  engine_new w := (Ret tt, w);
  engine_initialize w := (Ret (init_ok w), w);
  engine_is_running := pop_running;
  engine_get_delta_time := pop_delta;
  engine_shutdown w := (Ret tt, w);
  engine_get_input w := (Ret (keyboard w), w);
  engine_get_graphics w := (Ret tt, w);
  graphics_call _ w := (Ret tt, w);
  time_time := pop_reading;
  time_sleep _ w := (Ret tt, w)
}.

End Scripted.

(** ** Reading a trace *)

Fixpoint clock_readings (h : list event) : list Q :=
  match h with
  | [] => []
  | Clock t :: h' => t :: clock_readings h'
  | _ :: h' => clock_readings h'
  end.

Fixpoint ticks (h : list event) : list (Q * Q) :=
  match h with
  | [] => []
  | Tick d a :: h' => (d, a) :: ticks h'
  | _ :: h' => ticks h'
  end.

(** The [delta_time] of each iteration, and the accumulated time after
    it. *)
Definition deltas (h : list event) : list Q := map fst (ticks h).
Definition accumulated (h : list event) : list Q := map snd (ticks h).
Definition iterations (h : list event) : nat := List.length (ticks h).




(** ** Delta times and totals as functions of the clock readings *)

(** The differences of successive readings, starting from [last]. *)
Fixpoint differences (last : Q) (cs : list Q) : list Q :=
  match cs with
  | [] => []
  | c :: cs' => (c - last) :: differences c cs'
  end.

(** The totals after each addition, starting from [acc]. *)
Fixpoint running_totals (acc : Q) (ds : list Q) : list Q :=
  match ds with
  | [] => []
  | d :: ds' => (acc + d) :: running_totals (acc + d) ds'
  end.


(** What a loop that keeps [last] and [acc] logs as ticks over the
    readings [cs]. *)
Fixpoint loop_ticks (last acc : Q) (cs : list Q) : list (Q * Q) :=
  match cs with
  | [] => []
  | c :: cs' =>
      (c - last, acc + (c - last)) :: loop_ticks c (acc + (c - last)) cs'
  end.

(** The same for a script whose first reading comes before the loop. *)
Definition script_ticks (cs : list Q) : list (Q * Q) :=
  match cs with
  | [] => []
  | c0 :: cs' => loop_ticks c0 0 cs'
  end.

Definition script_differences (cs : list Q) : list Q :=
  match cs with
  | [] => []
  | c0 :: cs' => differences c0 cs'
  end.

Lemma loop_ticks_deltas : forall cs last acc,
  map fst (loop_ticks last acc cs) = differences last cs.
Proof.
  induction cs as [|c cs IH]; intros last acc; simpl; [reflexivity|].
  rewrite IH. reflexivity.
Qed.

Lemma loop_ticks_totals : forall cs last acc,
  map snd (loop_ticks last acc cs) = running_totals acc (differences last cs).
Proof.
  induction cs as [|c cs IH]; intros last acc; simpl; [reflexivity|].
  rewrite IH. reflexivity.
Qed.

Lemma running_totals_length : forall ds acc,
  List.length (running_totals acc ds) = List.length ds.
Proof.
  induction ds as [|d ds IH]; intros acc; simpl; [reflexivity|].
  rewrite IH. reflexivity.
Qed.


Fixpoint nondecreasing (l : list Q) : Prop :=
  match l with
  | x :: (y :: _) as tl => x <= y /\ nondecreasing tl
  | _ => True
  end.

Lemma differences_nonneg : forall cs last,
  nondecreasing (last :: cs) -> Forall (fun d => 0 <= d) (differences last cs).
Proof.
  induction cs as [|c cs IH]; intros last Hnd; simpl; constructor.
  - destruct Hnd as [Hle _]. lra.
  - apply IH. destruct Hnd as [_ Hnd]. exact Hnd.
Qed.

Lemma running_totals_nondecreasing : forall ds acc,
  Forall (fun d => 0 <= d) ds -> nondecreasing (acc :: running_totals acc ds).
Proof.
  induction ds as [|d ds IH]; intros acc Hpos; simpl; [exact I|].
  inversion Hpos; subst. split; [lra|].
  apply IH; assumption.
Qed.

(** Events that belong to the timing of a loop; prints, graphics calls
    and the like are not. *)
Definition is_timing (e : event) : bool :=
  match e with
  | EngineInit _ | IsRunning _ | DeltaTime _ | EngineShutdown
  | Clock _ | Sleep _ | Tick _ _ | Update _ _ | Render _ => true
  | _ => false
  end.

(** ** Monitors

    Properties of a history are stated as monitors: machines that read
    the history event by event and stop at the first violation. *)

Fixpoint scan {S : Type} (mstep : S -> event -> option S) (m : S)
         (h : list event) : option S :=
  match h with
  | [] => Some m
  | e :: h' =>
      match mstep m e with
      | Some m' => scan mstep m' h'
      | None => None
      end
  end.

Definition accepted {S : Type} (mstep : S -> event -> option S) (m : S)
           (h : list event) : bool :=
  match scan mstep m h with
  | Some _ => true
  | None => false
  end.

(** Update before render.  An iteration begins when the loop condition
    is evaluated ([IsRunning]).  Within an iteration a render needs an
    earlier update, and no update follows a render. *)
Inductive frame_progress : Type := Fresh | DidUpdate | DidRender.

Definition order_step (p : frame_progress) (e : event)
  : option frame_progress :=
  match e with
  | IsRunning _ => Some Fresh
  | Update _ _ =>
      match p with
      | DidRender => None
      | _ => Some DidUpdate
      end
  | Render _ =>
      match p with
      | Fresh => None
      | _ => Some DidRender
      end
  | _ => Some p
  end.

Definition update_before_render (h : list event) : bool :=
  accepted order_step Fresh h.

(** Once per iteration: the loop's own update and render callbacks run
    at most once between two evaluations of the loop condition. *)
Definition is_loop_callee (c : callee) : bool :=
  match c with
  | TheGame | TheApp => true
  | SceneObject _ => false
  end.





(** ** Protocols

    A protocol is a labelled transition system over events.  A computation
    follows a protocol from a phase when the events it adds to the trace
    are a path of the protocol from that phase, and its outcome and the
    phase reached satisfy the postcondition. *)

(** A postcondition that only constrains normal return. *)
Definition returns {A P} (post : A -> P -> Prop) (o : outcome A) (q : P) : Prop :=
  match o with
  | Ret a => post a q
  | _ => True
  end.

(** A postcondition for code that cannot fail. *)
Definition always {A P} (post : A -> P -> Prop) (o : outcome A) (q : P) : Prop :=
  match o with
  | Ret a => post a q
  | _ => False
  end.

Section Protocols.
Context {W : Type} `{Host W} {P : Type}.
Variable step : P -> event -> P -> Prop.

Inductive steps : P -> list event -> P -> Prop :=
| steps_nil : forall q, steps q [] q
| steps_cons : forall q e q1 evs q2,
    step q e q1 -> steps q1 evs q2 -> steps q (e :: evs) q2.

Lemma steps_app : forall q evs1 q1 evs2 q2,
  steps q evs1 q1 -> steps q1 evs2 q2 -> steps q (evs1 ++ evs2) q2.
Proof.
  intros q evs1 q1 evs2 q2 H1 H2.
  induction H1; simpl; [assumption|].
  econstructor; eauto.
Qed.

Lemma steps_one : forall q e q', step q e q' -> steps q [e] q'.
Proof. intros. econstructor; [eassumption | constructor]. Qed.

Lemma steps_split : forall evs1 q evs2 q2,
  steps q (evs1 ++ evs2) q2 ->
  exists q1, steps q evs1 q1 /\ steps q1 evs2 q2.
Proof.
  induction evs1 as [|e evs1 IH]; simpl; intros q evs2 q2 Hs.
  - exists q. split; [constructor | assumption].
  - inversion Hs as [|? ? qm ? ? Hst Hrest]; subst.
    destruct (IH _ _ _ Hrest) as (q1' & Ha & Hb).
    exists q1'. split; [econstructor; eassumption | assumption].
Qed.

Definition follows {A} (q : P) (m : M W A) (post : outcome A -> P -> Prop)
  : Prop :=
  forall s, exists evs q',
    trace (snd (m s)) = trace s ++ evs /\
    steps q evs q' /\
    post (fst (m s)) q'.

Lemma follows_ret : forall A (a : A) q (post : outcome A -> P -> Prop),
  post (Ret a) q -> follows q (ret a) post.
Proof.
  intros A a q post Hp s. exists [], q. simpl.
  rewrite app_nil_r. repeat split; [constructor | assumption].
Qed.

Lemma follows_raise : forall A e q (post : outcome A -> P -> Prop),
  post (Raise e) q -> follows q (raise e) post.
Proof.
  intros A e q post Hp s. exists [], q. simpl.
  rewrite app_nil_r. repeat split; [constructor | assumption].
Qed.

Lemma follows_diverge : forall A q (post : outcome A -> P -> Prop),
  post Diverge q -> follows q diverge post.
Proof.
  intros A q post Hp s. exists [], q. simpl.
  rewrite app_nil_r. repeat split; [constructor | assumption].
Qed.

Lemma follows_bind : forall A B (m : M W A) (f : A -> M W B) q
                            (mid : outcome A -> P -> Prop)
                            (post : outcome B -> P -> Prop),
  follows q m mid ->
  (forall a q1, mid (Ret a) q1 -> follows q1 (f a) post) ->
  (forall e q1, mid (Raise e) q1 -> post (Raise e) q1) ->
  (forall q1, mid Diverge q1 -> post Diverge q1) ->
  follows q (bind m f) post.
Proof.
  intros A B m f q mid post Hm Hf He Hd s.
  destruct (Hm s) as (evs1 & q1 & Ht1 & Hs1 & Hp1).
  unfold bind. destruct (m s) as [[a|e|] s1]; simpl in *.
  - destruct (Hf a q1 Hp1 s1) as (evs2 & q2 & Ht2 & Hs2 & Hp2).
    exists (evs1 ++ evs2), q2. repeat split.
    + rewrite Ht2, Ht1, app_assoc. reflexivity.
    + eapply steps_app; eassumption.
    + assumption.
  - exists evs1, q1. repeat split; auto.
  - exists evs1, q1. repeat split; auto.
Qed.

(** The strongest postcondition of logging one event. *)
Definition after_event {A} (q : P) (ev : A -> event) (o : outcome A) (q' : P)
  : Prop :=
  match o with
  | Ret a => step q (ev a) q'
  | _ => q' = q
  end.

(** Logging itself always returns. *)
Definition after_emit (q : P) (e : event) (o : outcome unit) (q' : P) : Prop :=
  match o with
  | Ret _ => step q e q'
  | _ => False
  end.

Lemma follows_emit : forall e q,
  (exists q', step q e q') ->
  follows q (emit e) (after_emit q e).
Proof.
  intros e q (q' & Hs) s. exists [e], q'. simpl.
  repeat split; [apply steps_one; assumption | assumption].
Qed.

Lemma follows_last_emit : forall e q q' (post : outcome unit -> P -> Prop),
  step q e q' -> post (Ret tt) q' -> follows q (emit e) post.
Proof.
  intros e q q' post Hs Hp s. exists [e], q'. simpl.
  repeat split; [apply steps_one; assumption | assumption].
Qed.

Lemma follows_call : forall A (op : W -> outcome A * W) (ev : A -> event) q,
  (forall a, exists q', step q (ev a) q') ->
  follows q (call op ev) (after_event q ev).
Proof.
  intros A op ev q Hstep s. unfold call.
  destruct (op (world s)) as [[a|e|] w]; simpl.
  - destruct (Hstep a) as (q' & Hs).
    exists [ev a], q'. repeat split; [apply steps_one; assumption | assumption].
  - exists [], q. rewrite app_nil_r. repeat split; constructor.
  - exists [], q. rewrite app_nil_r. repeat split; constructor.
Qed.

Lemma follows_invoke : forall A (cb : W -> outcome A * W) q,
  follows q (invoke cb) (fun _ q' => q' = q).
Proof.
  intros A cb q s. unfold invoke.
  destruct (cb (world s)) as [o w]; simpl.
  exists [], q. rewrite app_nil_r. repeat split; constructor.
Qed.

Lemma follows_weaken : forall A q (m : M W A)
                              (post post' : outcome A -> P -> Prop),
  follows q m post ->
  (forall o q', post o q' -> post' o q') ->
  follows q m post'.
Proof.
  intros A q m post post' Hm Hw s.
  destruct (Hm s) as (evs & q' & Ht & Hs & Hp).
  exists evs, q'. repeat split; auto.
Qed.

Lemma follows_try_except : forall A (m : M W A) (catches : exn -> bool)
                                  (handler : exn -> M W A) q
                                  (mid post : outcome A -> P -> Prop),
  follows q m mid ->
  (forall a q1, mid (Ret a) q1 -> post (Ret a) q1) ->
  (forall e q1, mid (Raise e) q1 ->
                if catches e then follows q1 (handler e) post
                else post (Raise e) q1) ->
  (forall q1, mid Diverge q1 -> post Diverge q1) ->
  follows q (try_except m catches handler) post.
Proof.
  intros A m catches handler q mid post Hm Hr Hh Hd s.
  destruct (Hm s) as (evs1 & q1 & Ht1 & Hs1 & Hp1).
  unfold try_except. destruct (m s) as [[a|e|] s1]; simpl in *.
  - exists evs1, q1. repeat split; auto.
  - specialize (Hh e q1 Hp1). destruct (catches e).
    + destruct (Hh s1) as (evs2 & q2 & Ht2 & Hs2 & Hp2).
      exists (evs1 ++ evs2), q2. repeat split.
      * rewrite Ht2, Ht1, app_assoc. reflexivity.
      * eapply steps_app; eassumption.
      * assumption.
    + exists evs1, q1. repeat split; auto.
  - exists evs1, q1. repeat split; auto.
Qed.

(** What a run from an empty trace gives. *)
Lemma follows_run : forall A q (m : M W A) (post : outcome A -> P -> Prop) w,
  follows q m post ->
  exists q', steps q (history_of (run_from m w)) q' /\
             post (result_of (run_from m w)) q'.
Proof.
  intros A q m post w Hm.
  destruct (Hm (mkState w [])) as (evs & q' & Ht & Hs & Hp).
  exists q'. unfold history_of, result_of, run_from.
  simpl in Ht. rewrite Ht. split; assumption.
Qed.

(** A monitor that simulates the protocol accepts all its paths. *)
Lemma steps_accepted : forall S (mstep : S -> event -> option S)
                              (sim : P -> S -> Prop),
  (forall q e q' m, step q e q' -> sim q m ->
                    exists m', mstep m e = Some m' /\ sim q' m') ->
  forall q evs q', steps q evs q' ->
  forall m, sim q m -> accepted mstep m evs = true.
Proof.
  intros S mstep sim Hsim q evs q' Hs.
  induction Hs as [q|q e q1 evs q2 Hst Hsteps IH]; intros m Hm.
  - reflexivity.
  - destruct (Hsim _ _ _ _ Hst Hm) as (m' & Hm' & Hsim').
    unfold accepted in *. simpl. rewrite Hm'. apply IH. assumption.
Qed.

(** Computations that log nothing of the timing leave the phase alone,
    provided the protocol lets such events pass. *)
Hypothesis silent_step : forall q e, is_timing e = false -> step q e q.

Lemma steps_silent : forall evs q,
  forallb (fun e => negb (is_timing e)) evs = true -> steps q evs q.
Proof.
  induction evs as [|e evs IH]; simpl; intros q Hall; [constructor|].
  apply andb_prop in Hall. destruct Hall as [He Hall].
  econstructor; [apply silent_step | apply IH; assumption].
  destruct (is_timing e); [discriminate | reflexivity].
Qed.

End Protocols.

(** A computation is silent when every event it logs is outside the
    timing. *)
Definition silent {W A} (m : M W A) : Prop :=
  forall s, exists evs,
    trace (snd (m s)) = trace s ++ evs /\
    forallb (fun e => negb (is_timing e)) evs = true.

Section Silence.
Context {W : Type} `{Host W}.

Lemma silent_ret : forall A (a : A), silent (W:=W) (ret a).
Proof. intros A a s. exists []. simpl. rewrite app_nil_r. auto. Qed.

Lemma silent_bind : forall A B (m : M W A) (f : A -> M W B),
  silent m -> (forall a, silent (f a)) -> silent (bind m f).
Proof.
  intros A B m f Hm Hf s. destruct (Hm s) as (evs1 & Ht1 & Ha1).
  unfold bind. destruct (m s) as [[a|e|] s1]; simpl in *.
  - destruct (Hf a s1) as (evs2 & Ht2 & Ha2).
    exists (evs1 ++ evs2). split.
    + rewrite Ht2, Ht1, app_assoc. reflexivity.
    + rewrite forallb_app, Ha1, Ha2. reflexivity.
  - exists evs1. auto.
  - exists evs1. auto.
Qed.

Lemma silent_emit : forall e, is_timing e = false -> silent (W:=W) (emit e).
Proof.
  intros e He s. exists [e]. simpl. rewrite He. auto.
Qed.

Lemma silent_call : forall A (op : W -> outcome A * W) (ev : A -> event),
  (forall a, is_timing (ev a) = false) -> silent (call op ev).
Proof.
  intros A op ev Hev s. unfold call.
  destruct (op (world s)) as [[a|e|] w]; simpl.
  - exists [ev a]. simpl. rewrite Hev. auto.
  - exists []. rewrite app_nil_r. auto.
  - exists []. rewrite app_nil_r. auto.
Qed.

Lemma silent_gfx : forall c, silent (gfx c).
Proof. intros c. apply silent_call. reflexivity. Qed.

Lemma silent_get_graphics : silent get_graphics.
Proof. apply silent_call. reflexivity. Qed.

Lemma silent_print : forall m, silent (W:=W) (print m).
Proof. intros m. apply silent_emit. reflexivity. Qed.

Lemma silent_print_lines : forall ls, silent (W:=W) (print_lines ls).
Proof.
  induction ls as [|l ls IH]; simpl.
  - apply silent_ret.
  - apply silent_bind; [apply silent_print | intros _; exact IH].
Qed.

Lemma silent_follows : forall P (step : P -> event -> P -> Prop) A
                              (m : M W A) q,
  (forall q e, is_timing e = false -> step q e q) ->
  silent m ->
  follows step q m (fun _ q' => q' = q).
Proof.
  intros P step A m q Hsil Hm s.
  destruct (Hm s) as (evs & Ht & Hall).
  exists evs, q. repeat split; [assumption|].
  apply steps_silent; assumption.
Qed.

End Silence.

(** Boolean comparisons of rationals against their propositions. *)
Lemma Qlt_bool_true : forall x y, Qlt_bool x y = true <-> x < y.
Proof.
  intros x y. unfold Qlt_bool. rewrite negb_true_iff.
  split; intros Hxy.
  - apply Qnot_le_lt. intros Hle. apply Qle_bool_iff in Hle. congruence.
  - destruct (Qle_bool y x) eqn:E; [|reflexivity].
    apply Qle_bool_iff in E. exfalso. apply (Qlt_not_le _ _ Hxy E).
Qed.

Lemma Qlt_bool_false : forall x y, Qlt_bool x y = false <-> y <= x.
Proof.
  intros x y. unfold Qlt_bool. rewrite negb_false_iff. apply Qle_bool_iff.
Qed.

(** Symbolic execution of one [bind] whose first computation logs an
    event allowed by [rule]. *)
Ltac after_step Hst :=
  simpl in Hst; inversion Hst; subst; try discriminate; clear Hst.

Ltac rewrite_silent :=
  match goal with
  | Hsil : is_timing ?e = false |- context [is_timing ?e] => rewrite Hsil
  end.

Ltac run_call rule :=
  eapply follows_bind;
  [ apply follows_call; intros; eexists; rule
  | let Hst := fresh "Hst" in intros ? ? Hst; after_step Hst
  | let Hst := fresh "Hst" in intros ? ? Hst; simpl in Hst; subst
  | let Hst := fresh "Hst" in intros ? Hst; simpl in Hst; subst ].

Ltac run_emit rule :=
  eapply follows_bind;
  [ apply follows_emit; eexists; rule
  | let Hst := fresh "Hst" in intros ? ? Hst; after_step Hst
  | intros ? ? []
  | intros ? [] ].

Ltac run_silent other lem :=
  eapply follows_bind;
  [ apply silent_follows; [exact other | lem]
  | intros ? ? ->
  | intros ? ? ->
  | intros ? -> ].

(** ** The protocol of the demo loop *)

Module DemoProtocol.

Import BasicDemo.

Inductive phase : Type :=
| Start
| Boundary (last_time demo_time : Q)
| Sampled (last_time demo_time current_time : Q)
| Ticked (last_time demo_time : Q).

Section Rules.
Variable max_duration : Q.
Variable frame_delay : Q.

Inductive step : phase -> event -> phase -> Prop :=
| first_sample : forall t,
    step Start (Clock t) (Boundary t 0)
| sample : forall l a t,
    step (Boundary l a) (Clock t) (Sampled l a t)
| tick : forall l a t,
    step (Sampled l a t) (Tick (t - l) (a + (t - l))) (Ticked t (a + (t - l)))
| pause : forall t a,
    Qlt_bool max_duration a = false ->
    step (Ticked t a) (Sleep frame_delay) (Boundary t a)
| other : forall q e,
    is_timing e = false -> step q e q.

(** The phases a failed or unfinished run can be in: never between a
    clock sample and its tick, never past a tick that exceeded the
    limit. *)
Definition resting (q : phase) : Prop :=
  match q with
  | Sampled _ _ _ => False
  | Ticked _ a => Qlt_bool max_duration a = false
  | _ => True
  end.

Definition body_post (o : outcome (bool * locals)) (q : phase) : Prop :=
  match o with
  | Ret (true, l) =>
      q = Ticked (last_time l) (demo_time l) /\
      Qlt_bool max_duration (demo_time l) = true
  | Ret (false, l) => q = Boundary (last_time l) (demo_time l)
  | _ => resting q
  end.

Definition loop_post (o : outcome locals) (q : phase) : Prop :=
  match o with
  | Ret l =>
      q = Ticked (last_time l) (demo_time l) /\
      Qlt_bool max_duration (demo_time l) = true
  | _ => resting q
  end.

Section Refinement.
Context {W : Type} `{Host W}.

Lemma demo_body_follows : forall l,
  follows step (Boundary (last_time l) (demo_time l))
          (demo_body max_duration frame_delay l) body_post.
Proof.
  intros l. unfold demo_body.
  run_call ltac:(apply sample); try exact I.
  run_emit ltac:(apply tick).
  eapply follows_bind with
    (mid := always (fun _ q' =>
              q' = Ticked a (demo_time l + (a - last_time l))));
    try (intros; contradiction).
  - destruct (_ =? _)%Z.
    + unfold print. eapply follows_last_emit; [apply other|]; reflexivity.
    + apply follows_ret. reflexivity.
  - intros _ q1 ->.
    destruct (Qlt_bool max_duration (demo_time l + (a - last_time l))) eqn:E.
    + unfold print. run_emit ltac:(apply other; reflexivity).
      apply follows_ret. simpl. auto.
    + run_call ltac:(apply pause; assumption); try assumption.
      apply follows_ret. reflexivity.
Qed.

Lemma demo_loop_follows : forall fuel l,
  follows step (Boundary (last_time l) (demo_time l))
          (demo_loop_with max_duration frame_delay fuel l) loop_post.
Proof.
  induction fuel as [|fuel IH]; intros l; simpl.
  - apply follows_diverge. exact I.
  - eapply follows_bind; [apply demo_body_follows | | |]; simpl.
    + intros [[|] l'] q1 Hpost; simpl in *.
      * destruct Hpost as [-> Hexc]. apply follows_ret. simpl. auto.
      * subst q1. apply IH.
    + auto.
    + auto.
Qed.

Lemma demo_script_follows : forall fuel,
  follows step Start
          (demo_script_with max_duration frame_delay fuel) loop_post.
Proof.
  intros fuel. unfold demo_script_with.
  run_call ltac:(apply other; reflexivity); try exact I.
  unfold print.
  run_emit ltac:(apply other; reflexivity).
  run_emit ltac:(apply other; reflexivity).
  run_call ltac:(apply other; reflexivity); try exact I.
  run_silent other ltac:(apply silent_print_lines); try exact I.
  run_call ltac:(apply first_sample); try exact I.
  match goal with
  | |- follows _ _ (demo_loop_with _ _ _ ?l) _ => apply (demo_loop_follows fuel l)
  end.
Qed.

Lemma basic_demo_follows : forall fuel,
  follows step Start
          (basic_demo_with max_duration frame_delay fuel) loop_post.
Proof.
  intros fuel. unfold basic_demo_with.
  eapply follows_try_except; [apply demo_script_follows | | |]; auto.
  intros e q1 Hne. simpl in Hne.
  assert (Hh : follows step q1 (demo_handlers (W:=W) (A:=locals) e) loop_post).
  { unfold demo_handlers, print.
    destruct e;
      repeat (run_emit ltac:(apply other; reflexivity));
      apply follows_raise; exact Hne. }
  destruct (is_Exception e); [exact Hh | exact Hne].
Qed.

End Refinement.

(** *** What every path of the protocol satisfies *)

Definition expected_ticks (q : phase) (cs : list Q) : list (Q * Q) :=
  match q with
  | Start => script_ticks cs
  | Boundary l a => loop_ticks l a cs
  | Sampled l a t => (t - l, a + (t - l)) :: loop_ticks t (a + (t - l)) cs
  | Ticked t a => loop_ticks t a cs
  end.

Definition not_sampled (q : phase) : Prop :=
  match q with
  | Sampled _ _ _ => False
  | _ => True
  end.

Lemma demo_steps_ticks : forall q evs q',
  steps step q evs q' -> not_sampled q' ->
  ticks evs = expected_ticks q (clock_readings evs).
Proof.
  induction 1 as [q|q e q1 evs q2 Hst Hsteps IH]; intros Hq'.
  - destruct q; simpl in *; tauto.
  - specialize (IH Hq').
    inversion Hst; subst; simpl; try (rewrite IH; reflexivity).
    destruct e; try discriminate; simpl; exact IH.
Qed.

(** Past a tick that exceeded the limit nothing of the timing happens. *)
Lemma steps_after_exceeding : forall evs t a q',
  steps step (Ticked t a) evs q' ->
  Qlt_bool max_duration a = true ->
  q' = Ticked t a /\ filter is_timing evs = [].
Proof.
  induction evs as [|e evs IH]; intros t a q' Hs Hexc.
  - inversion Hs; subst. auto.
  - inversion Hs as [|? ? q1 ? ? Hst Hrest]; subst.
    inversion Hst; subst.
    + congruence.
    + simpl. rewrite_silent. apply IH; assumption.
Qed.

Lemma filter_timing_ticks : forall evs,
  filter is_timing evs = [] -> ticks evs = [].
Proof.
  induction evs as [|e evs IH]; simpl; [reflexivity|].
  destruct e; simpl; try discriminate; assumption.
Qed.

Lemma steps_stop : forall q evs q',
  steps step q evs q' ->
  forall pre a post,
    accumulated evs = pre ++ a :: post -> max_duration < a -> post = [].
Proof.
  induction 1 as [q|q e q1 evs q2 Hst Hsteps IH]; intros pre a post Hacc Hexc.
  - destruct pre; discriminate.
  - inversion Hst; subst; try (apply (IH pre a post); [exact Hacc | exact Hexc]).
    + unfold accumulated in Hacc. simpl in Hacc. destruct pre as [|p pre].
      * simpl in Hacc. inversion Hacc; subst.
        apply Qlt_bool_true in Hexc.
        destruct (steps_after_exceeding _ _ _ _ Hsteps Hexc) as [_ Hsil].
        unfold accumulated. rewrite (filter_timing_ticks _ Hsil). reflexivity.
      * simpl in Hacc. inversion Hacc; subst.
        apply (IH pre a post); [assumption | exact Hexc].
    + destruct e; try discriminate;
        (apply (IH pre a post); [exact Hacc | exact Hexc]).
Qed.

(** A path that ends on a tick has logged it. *)
Lemma steps_to_ticked : forall q evs t a,
  steps step q evs (Ticked t a) ->
  (q = Ticked t a /\ filter is_timing evs = []) \/ In a (accumulated evs).
Proof.
  intros q evs t a Hs. remember (Ticked t a) as q' eqn:Eq.
  induction Hs as [q|q e q1 evs q2 Hst Hsteps IH].
  - left. auto.
  - specialize (IH Eq). subst q2.
    destruct IH as [[-> Hsil]|Hin].
    + inversion Hst; subst.
      * right. unfold accumulated. simpl. auto.
      * left. simpl. rewrite_silent. auto.
    + right. unfold accumulated in *.
      destruct e; simpl; auto.
Qed.

(** A path that logs a total over the limit ends on that tick. *)
Lemma steps_exceeding_end : forall q evs q',
  steps step q evs q' ->
  forall a, In a (accumulated evs) -> max_duration < a ->
  exists t a', q' = Ticked t a' /\ Qlt_bool max_duration a' = true.
Proof.
  induction 1 as [q|q e q1 evs q2 Hst Hsteps IH]; intros a Hin Hexc.
  - contradiction.
  - inversion Hst; subst; try (apply (IH a); [exact Hin | exact Hexc]).
    + unfold accumulated in Hin. simpl in Hin. destruct Hin as [<-|Hin].
      * apply Qlt_bool_true in Hexc.
        destruct (steps_after_exceeding _ _ _ _ Hsteps Hexc) as [-> _].
        eauto.
      * apply (IH a); assumption.
    + destruct e; try discriminate; (apply (IH a); assumption).
Qed.

End Rules.
End DemoProtocol.

(** ** The protocol of the platformer's [main] *)

Module MainProtocol.

Import PlatformerMain.

Inductive phase : Type :=
| Start
| Refused
| Initialized
| Boundary (clock game_time : Q)
| Entered (clock game_time : Q)
| Sampled (clock game_time current_time : Q)
| Updating (clock delta_time game_time : Q)
| Updated (clock delta_time game_time : Q)
| Rendering (clock delta_time game_time : Q)
| Left (clock game_time : Q)
| Ended.

(** The phases a failed or unfinished run can be in: never between a
    clock sample and the tick of the update it triggers. *)
Definition resting (q : phase) : Prop :=
  match q with
  | Sampled _ _ _ | Updating _ _ _ => False
  | _ => True
  end.

Inductive step : phase -> event -> phase -> Prop :=
| init_ok : step Start (EngineInit true) Initialized
| init_refused : step Start (EngineInit false) Refused
| first_sample : forall t,
    step Initialized (Clock t) (Boundary t 0)
| enter : forall c g,
    step (Boundary c g) (IsRunning true) (Entered c g)
| leave : forall c g,
    step (Boundary c g) (IsRunning false) (Left c g)
| sample : forall c g t,
    step (Entered c g) (Clock t) (Sampled c g t)
| update : forall c g t,
    step (Sampled c g t) (Update TheGame (t - c)) (Updating t (t - c) g)
| tick : forall t d g,
    step (Updating t d g) (Tick d (g + d)) (Updated t d (g + d))
| render : forall t d a,
    step (Updated t d a) (Render TheGame) (Rendering t d a)
| pause : forall t d a,
    step (Rendering t d a) (Sleep (py_max 0 ((1 # 60) - d))) (Boundary t a)
| shutdown : forall q,
    resting q -> step q EngineShutdown Ended
| other : forall q e,
    is_timing e = false -> step q e q.

Definition body_post (o : outcome (Q * PlatformerGame.t)) (q : phase) : Prop :=
  match o with
  | Ret (c, g) => q = Boundary c (PlatformerGame.game_time g)
  | _ => resting q
  end.

Definition loop_post (o : outcome (Q * PlatformerGame.t)) (q : phase) : Prop :=
  match o with
  | Ret (c, g) => q = Left c (PlatformerGame.game_time g)
  | _ => resting q
  end.

Definition main_post (o : outcome unit) (q : phase) : Prop :=
  match o with
  | Ret _ => q = Refused \/ q = Ended
  | _ => resting q
  end.

Section Refinement.
Context {W : Type} `{Host W}.

Lemma silent_render_platforms : forall ps,
  silent (PlatformerGame.render_platforms ps).
Proof.
  induction ps as [|p ps IH]; simpl.
  - apply silent_ret.
  - apply silent_bind; [apply silent_gfx | intros _; exact IH].
Qed.

Lemma silent_render : forall g, silent (PlatformerGame.render g).
Proof.
  intros g. unfold PlatformerGame.render, PlatformerGame.render_ui,
    Player.render.
  repeat first
    [ apply silent_get_graphics
    | apply silent_gfx
    | apply silent_render_platforms
    | apply silent_bind; [|intros _] ].
Qed.

Lemma update_follows : forall t d g,
  follows step (Updating t d (PlatformerGame.game_time g))
          (PlatformerGame.update d g)
          (fun o q =>
             match o with
             | Ret g' => q = Updated t d (PlatformerGame.game_time g')
             | _ => resting q
             end).
Proof.
  intros t d g. unfold PlatformerGame.update.
  run_emit ltac:(apply tick).
  run_call ltac:(apply other; reflexivity); try exact I.
  apply follows_ret. reflexivity.
Qed.

Lemma main_body_follows : forall clock game,
  follows step (Entered clock (PlatformerGame.game_time game))
          (main_body clock game) body_post.
Proof.
  intros clock game. unfold main_body.
  run_call ltac:(apply sample); try exact I.
  run_emit ltac:(apply update).
  eapply follows_bind; [apply update_follows | | auto | auto].
  intros game' q1 ->.
  run_silent other ltac:(apply silent_get_graphics); try exact I.
  run_silent other ltac:(apply silent_gfx); try exact I.
  run_emit ltac:(apply render).
  run_silent other ltac:(apply silent_render); try exact I.
  run_silent other ltac:(apply silent_gfx); try exact I.
  run_silent other ltac:(apply silent_gfx); try exact I.
  run_call ltac:(apply pause); try exact I.
  apply follows_ret. reflexivity.
Qed.

Lemma main_loop_follows : forall fuel clock game,
  follows step (Boundary clock (PlatformerGame.game_time game))
          (main_loop fuel clock game) loop_post.
Proof.
  induction fuel as [|fuel IH]; intros clock game; simpl.
  - apply follows_diverge. exact I.
  - eapply follows_bind.
    + apply follows_call. intros [|]; eexists; [apply enter | apply leave].
    + intros [|] q1 Hst; after_step Hst.
      * eapply follows_bind; [apply main_body_follows | | auto | auto].
        intros [c g] q1 Hq. simpl in Hq. subst q1. apply IH.
      * apply follows_ret. reflexivity.
    + intros e q1 Hst. simpl in Hst. subst. exact I.
    + intros q1 Hst. simpl in Hst. subst. exact I.
Qed.

Lemma guarded_loop_follows : forall fuel clock,
  follows step (Boundary clock 0)
          (try_except (main_loop fuel clock PlatformerGame.init ;; ret tt)
                      is_KeyboardInterrupt
                      (fun _ => print (Text "Game interrupted by user")))
          (fun _ q => resting q).
Proof.
  intros fuel clock.
  eapply follows_try_except with (mid := fun _ q => resting q); auto.
  - eapply follows_bind;
      [apply (main_loop_follows fuel clock PlatformerGame.init) | | auto | auto].
    intros [c g] q1 Hq. simpl in Hq. subst q1.
    apply follows_ret. exact I.
  - intros e q1 Hq. destruct (is_KeyboardInterrupt e); [|exact Hq].
    unfold print. eapply follows_last_emit; [apply other; reflexivity|].
    exact Hq.
Qed.

Lemma main_follows : forall fuel, follows step Start (main fuel) main_post.
Proof.
  intros fuel. unfold main, print.
  run_emit ltac:(apply other; reflexivity).
  run_call ltac:(apply other; reflexivity); try exact I.
  eapply follows_bind.
  - apply follows_call. intros [|]; eexists; [apply init_ok | apply init_refused].
  - intros [|] q1 Hst; after_step Hst; simpl.
    + run_emit ltac:(apply other; reflexivity).
      run_emit ltac:(apply other; reflexivity).
      run_call ltac:(apply first_sample); try exact I.
      eapply follows_bind; [apply guarded_loop_follows | | auto | auto].
      intros u q1 Hq. simpl in Hq.
      run_call ltac:(apply shutdown; assumption); try assumption.
      eapply follows_last_emit; [apply other; reflexivity|].
      right. reflexivity.
    + run_emit ltac:(apply other; reflexivity).
      apply follows_ret. left. reflexivity.
  - intros e q1 Hst. simpl in Hst. subst. exact I.
  - intros q1 Hst. simpl in Hst. subst. exact I.
Qed.

End Refinement.

(** *** What every path of the protocol satisfies *)

Definition expected_ticks (q : phase) (cs : list Q) : list (Q * Q) :=
  match q with
  | Start | Initialized => script_ticks cs
  | Boundary c g | Entered c g | Left c g => loop_ticks c g cs
  | Sampled c g t => (t - c, g + (t - c)) :: loop_ticks t (g + (t - c)) cs
  | Updating t d g => (d, g + d) :: loop_ticks t (g + d) cs
  | Updated t d a | Rendering t d a => loop_ticks t a cs
  | Refused | Ended => []
  end.

Lemma steps_from_end : forall q evs q',
  steps step q evs q' -> q = Ended \/ q = Refused ->
  ticks evs = [] /\ clock_readings evs = [].
Proof.
  induction 1 as [q|q e q1 evs q2 Hst Hsteps IH]; intros Hq.
  - auto.
  - destruct Hq as [-> | ->]; inversion Hst; subst; simpl; auto;
      destruct e; try discriminate; simpl; auto.
Qed.

Lemma expected_ticks_nil : forall q, resting q -> expected_ticks q [] = [].
Proof. intros q Hq. destruct q; simpl in *; tauto. Qed.

Lemma main_steps_ticks : forall q evs q',
  steps step q evs q' -> resting q' ->
  ticks evs = expected_ticks q (clock_readings evs).
Proof.
  induction 1 as [q|q e q1 evs q2 Hst Hsteps IH]; intros Hq'.
  - simpl. symmetry. apply expected_ticks_nil. assumption.
  - specialize (IH Hq').
    inversion Hst; subst; simpl; try (rewrite IH; reflexivity).
    + destruct (steps_from_end _ _ _ Hsteps (or_intror eq_refl)) as [-> ->].
      reflexivity.
    + destruct (steps_from_end _ _ _ Hsteps (or_introl eq_refl)) as [-> ->].
      symmetry. apply expected_ticks_nil. assumption.
    + destruct e; try discriminate; simpl; exact IH.
Qed.

(** The order monitor. *)
Definition order_sim (q : phase) (p : frame_progress) : Prop :=
  match q with
  | Entered _ _ | Sampled _ _ _ => p = Fresh
  | Updating _ _ _ | Updated _ _ _ => p = DidUpdate
  | Rendering _ _ _ => p = DidRender
  | _ => True
  end.


(** The once-per-iteration monitor. *)
Definition once_sim (q : phase) (st : bool * bool) : Prop :=
  match q with
  | Entered _ _ | Sampled _ _ _ => st = (false, false)
  | Updating _ _ _ | Updated _ _ _ => st = (true, false)
  | Rendering _ _ _ => st = (true, true)
  | _ => True
  end.




End MainProtocol.

(** ** The protocol of [GameApplication.run] *)

Module RunProtocol.

Import GameApplication.

Inductive phase : Type :=
| Start
| Refused
| Boundary
| Head (engine_running : bool)
| SceneUpdating (delta_time : Q)
| AppUpdated (delta_time : Q)
| AppRendered (delta_time : Q)
| Ended.

Inductive step : phase -> event -> phase -> Prop :=
| init_ok : step Start (EngineInit true) Boundary
| init_refused : step Start (EngineInit false) Refused
| first_check : forall b, step Start (IsRunning b) (Head b)
| check : forall b, step Boundary (IsRunning b) (Head b)
| delta : forall dt, step (Head true) (DeltaTime dt) (SceneUpdating dt)
| object_updated : forall dt name,
    step (SceneUpdating dt) (Update (SceneObject name) dt) (SceneUpdating dt)
| app_updated : forall dt,
    step (SceneUpdating dt) (Update TheApp dt) (AppUpdated dt)
| object_rendered : forall dt name,
    step (AppUpdated dt) (Render (SceneObject name)) (AppUpdated dt)
| app_rendered : forall dt,
    step (AppUpdated dt) (Render TheApp) (AppRendered dt)
| pause : forall dt,
    step (AppRendered dt) (Sleep (1 # 1000)) Boundary
| shutdown : forall b, step (Head b) EngineShutdown Ended
| other : forall q e, is_timing e = false -> step q e q.

Section Refinement.
Context {W : Type} `{Host W}.
Variable code : Overrides W.









End Refinement.

(** *** What every path of the protocol satisfies *)

Definition order_sim (q : phase) (p : frame_progress) : Prop :=
  match q with
  | Head _ => p = Fresh
  | SceneUpdating _ => p <> DidRender
  | AppUpdated _ => p <> Fresh
  | _ => True
  end.


Definition once_sim (q : phase) (st : bool * bool) : Prop :=
  match q with
  | Head _ | SceneUpdating _ => st = (false, false)
  | AppUpdated _ => st = (true, false)
  | _ => True
  end.



End RunProtocol.

(** ** Histories of the two clock-driven loops *)

Lemma script_ticks_deltas : forall cs,
  map fst (script_ticks cs) = script_differences cs.
Proof. intros [|c0 cs]; simpl; [reflexivity | apply loop_ticks_deltas]. Qed.

Lemma script_ticks_totals : forall cs,
  map snd (script_ticks cs) = running_totals 0 (script_differences cs).
Proof. intros [|c0 cs]; simpl; [reflexivity | apply loop_ticks_totals]. Qed.

Section ClockedHistories.
Context {W : Type} `{Host W}.

Lemma demo_history_ticks : forall max_duration frame_delay fuel w,
  let h := history_of
             (run_from (BasicDemo.basic_demo_with max_duration frame_delay fuel) w) in
  ticks h = script_ticks (clock_readings h).
Proof.
  intros D delay fuel w h.
  destruct (follows_run _ _ _ _ _ w
              (DemoProtocol.basic_demo_follows D delay fuel))
    as (q' & Hsteps & Hpost).
  apply (DemoProtocol.demo_steps_ticks D delay _ _ _ Hsteps).
  destruct (result_of _) as [l| |]; simpl in Hpost.
  - destruct Hpost as [-> _]. exact I.
  - destruct q'; simpl in *; tauto.
  - destruct q'; simpl in *; tauto.
Qed.

Lemma main_history_ticks : forall fuel w,
  let h := history_of (run_from (PlatformerMain.main fuel) w) in
  ticks h = script_ticks (clock_readings h).
Proof.
  intros fuel w h.
  destruct (follows_run _ _ _ _ _ w (MainProtocol.main_follows fuel))
    as (q' & Hsteps & Hpost).
  apply (MainProtocol.main_steps_ticks _ _ _ Hsteps).
  destruct (result_of _) as [u| |]; simpl in Hpost; try assumption.
  destruct Hpost as [-> | ->]; exact I.
Qed.

End ClockedHistories.




(** ** The first delta *)

(** The first delta of a history, when there is one, is the first reading
    taken inside the loop minus the reading taken before the loop. *)
Definition first_delta_is_first_interval (h : list event) : Prop :=
  hd_error (deltas h) =
  match clock_readings h with
  | c0 :: c1 :: _ => Some (c1 - c0)
  | _ => None
  end.

Lemma ticks_first_delta : forall h,
  ticks h = script_ticks (clock_readings h) -> first_delta_is_first_interval h.
Proof.
  intros h Ht. unfold first_delta_is_first_interval, deltas.
  rewrite Ht. destruct (clock_readings h) as [|c0 [|c1 cs]]; reflexivity.
Qed.

(** C8, as the specification states it, fails: with the clock at 0 before
    the loop and at 1/10 at the first iteration, the demo's first delta is
    1/10. *)
Lemma C8_counterexample :
  let h := history_of
             (run_from (W:=Scripted.world) (BasicDemo.basic_demo 1)
                       (Scripted.clock_only [0; 1 # 10])) in
  exists d, hd_error (deltas h) = Some d /\ ~ d == 0.
Proof.
  exists ((1 # 10) - 0). split; [reflexivity|].
  intros Heq. vm_compute in Heq. discriminate.
Qed.

(** C8, amended.  In every run of the demo and of the platformer the
    first iteration's delta is the first clock reading taken inside the
    loop minus the reading taken just before the loop ([last_time],
    [clock]); it is zero exactly when the two readings are equal. *)
Theorem C8_first_delta_is_first_interval :
  forall (W : Type) (host : Host W) (fuel : nat) (w : W),
    first_delta_is_first_interval
      (history_of (run_from (BasicDemo.basic_demo fuel) w)) /\
    first_delta_is_first_interval
      (history_of (run_from (PlatformerMain.main fuel) w)) /\
    (forall c0 c1 : Q, c1 - c0 == 0 <-> c1 == c0).
Proof.
  intros W host fuel w. repeat split.
  - apply ticks_first_delta, demo_history_ticks.
  - apply ticks_first_delta, main_history_ticks.
  - intros Hd. lra.
  - intros Hd. lra.
Qed.

(** ** Clocks that run backward *)

(** C4, as the specification states it, fails: nothing clamps the delta.
    With the clock at 1 before the loop and at 1/2 at the first
    iteration, the demo's delta and its accumulated time are negative. *)
Lemma C4_counterexample :
  let h := history_of
             (run_from (W:=Scripted.world) (BasicDemo.basic_demo 1)
                       (Scripted.clock_only [1; 1 # 2])) in
  ~ Forall (fun d => 0 <= d) (deltas h) /\ ~ nondecreasing (0 :: accumulated h).
Proof.
  split.
  - intros Hall. vm_compute in Hall. inversion Hall as [|d ds Hd Hrest]; subst.
    apply Hd. reflexivity.
  - intros Hnd. vm_compute in Hnd. destruct Hnd as [Hle _].
    apply Hle. reflexivity.
Qed.

Lemma ticks_monotone : forall h,
  ticks h = script_ticks (clock_readings h) ->
  nondecreasing (clock_readings h) ->
  Forall (fun d => 0 <= d) (deltas h) /\ nondecreasing (0 :: accumulated h).
Proof.
  intros h Ht Hnd. unfold deltas, accumulated.
  rewrite Ht, script_ticks_deltas, script_ticks_totals.
  assert (Hpos : Forall (fun d => 0 <= d) (script_differences (clock_readings h))).
  { destruct (clock_readings h) as [|c0 cs]; simpl; [constructor|].
    apply differences_nonneg. assumption. }
  split; [assumption | apply running_totals_nondecreasing; assumption].
Qed.

(** C4, amended.  In every run of the demo and of the platformer whose
    clock readings never decrease, every delta is non-negative and the
    accumulated time never decreases from one iteration to the next. *)
Theorem C4_monotone_clock_monotone_time :
  forall (W : Type) (host : Host W) (fuel : nat) (w : W),
    let demo := history_of (run_from (BasicDemo.basic_demo fuel) w) in
    let game := history_of (run_from (PlatformerMain.main fuel) w) in
    (nondecreasing (clock_readings demo) ->
     Forall (fun d => 0 <= d) (deltas demo) /\
     nondecreasing (0 :: accumulated demo)) /\
    (nondecreasing (clock_readings game) ->
     Forall (fun d => 0 <= d) (deltas game) /\
     nondecreasing (0 :: accumulated game)).
Proof.
  intros W host fuel w demo game. split; intros Hnd.
  - apply ticks_monotone; [apply demo_history_ticks | exact Hnd].
  - apply ticks_monotone; [apply main_history_ticks | exact Hnd].
Qed.

(** ** The demo's exit *)

Lemma ticks_app : forall h1 h2, ticks (h1 ++ h2) = ticks h1 ++ ticks h2.
Proof.
  induction h1 as [|e h1 IH]; intros h2; simpl; [reflexivity|].
  destruct e; simpl; rewrite ?IH; reflexivity.
Qed.

Lemma accumulated_app : forall h1 h2,
  accumulated (h1 ++ h2) = accumulated h1 ++ accumulated h2.
Proof.
  intros h1 h2. unfold accumulated. rewrite ticks_app, map_app. reflexivity.
Qed.

(** The index of the first total that exceeds the limit. *)
Fixpoint first_exceeding (max_duration : Q) (totals : list Q) : option nat :=
  match totals with
  | [] => None
  | a :: rest =>
      if Qlt_bool max_duration a then Some 0%nat
      else option_map S (first_exceeding max_duration rest)
  end.

Section DemoExit.
Context {W : Type} `{Host W}.

Lemma demo_exit : forall max_duration frame_delay fuel w,
  let r := run_from (BasicDemo.basic_demo_with max_duration frame_delay fuel) w in
  (forall pre a post,
      accumulated (history_of r) = pre ++ a :: post ->
      max_duration < a -> post = []) /\
  ((exists l, result_of r = Ret l) <->
   Exists (fun a => max_duration < a) (accumulated (history_of r))).
Proof.
  intros D delay fuel w r.
  destruct (follows_run _ _ _ _ _ w
              (DemoProtocol.basic_demo_follows D delay fuel))
    as (q' & Hsteps & Hpost).
  fold r in Hsteps, Hpost. split; [|split].
  - apply (DemoProtocol.steps_stop D delay _ _ _ Hsteps).
  - intros (l & Hl). rewrite Hl in Hpost. simpl in Hpost.
    destruct Hpost as [-> Hexc].
    destruct (DemoProtocol.steps_to_ticked D delay _ _ _ _ Hsteps)
      as [[Hq _]|Hin]; [discriminate|].
    apply Exists_exists. exists (BasicDemo.demo_time l).
    split; [assumption | apply Qlt_bool_true; assumption].
  - intros Hex. apply Exists_exists in Hex. destruct Hex as (a & Hin & Hexc).
    destruct (DemoProtocol.steps_exceeding_end D delay _ _ _ Hsteps a Hin Hexc)
      as (t & a' & -> & Hexc').
    destruct (result_of r) as [l| |]; simpl in Hpost.
    + eauto.
    + congruence.
    + congruence.
Qed.

End DemoExit.

(** What the demo has logged on the scripted host when it reaches its
    loop. *)
Definition prologue (r0 : Q) : list event :=
  [Imported; Print (Text "=== Nexus Engine Python Demo ===");
   Print (Text "Loading enhanced graphics demo..."); EngineNew]
  ++ map (fun l => Print (Text l)) BasicDemo.banner ++ [Clock r0].

Lemma demo_script_scripted : forall D delay fuel r0 rs,
  BasicDemo.demo_script_with (W:=Scripted.world) D delay fuel
    (mkState (Scripted.clock_only (r0 :: rs)) []) =
  BasicDemo.demo_loop_with D delay fuel (BasicDemo.mkLocals r0 0 0)
    (mkState (Scripted.clock_only rs) (prologue r0)).
Proof. intros. reflexivity. Qed.

Section DemoScripted.
Variable max_duration : Q.
Variable frame_delay : Q.

Lemma demo_loop_scripted : forall rs k l (s : state Scripted.world),
  Scripted.readings (world s) = rs ->
  let r := BasicDemo.demo_loop_with max_duration frame_delay
             (S (List.length rs + k)) l s in
  let totals :=
    running_totals (BasicDemo.demo_time l)
                   (differences (BasicDemo.last_time l) rs) in
  match first_exceeding max_duration totals with
  | Some n =>
      (exists l', fst r = Ret l') /\
      accumulated (trace (snd r)) =
      accumulated (trace s) ++ firstn (S n) totals
  | None =>
      fst r = Diverge /\
      accumulated (trace (snd r)) = accumulated (trace s) ++ totals
  end.
Proof.
  induction rs as [|c rs IH]; intros k l s Hrs.
  - destruct s as [[rd ra da kb io] tr]. simpl in Hrs. subst rd.
    simpl. rewrite app_nil_r. auto.
  - destruct s as [[rd ra da kb io] tr]. simpl in Hrs. subst rd.
    change (S (List.length (c :: rs) + k)) with (S (S (List.length rs + k))).
    remember (S (List.length rs + k)) as fuel eqn:Efuel.
    cbn [differences running_totals first_exceeding BasicDemo.demo_loop_with].
    unfold BasicDemo.demo_body, bind, call, emit, print, ret. simpl.
    destruct ((BasicDemo.frame_count l + 1) mod 60 =? 0)%Z;
      destruct (Qlt_bool max_duration _) eqn:E; simpl;
      try (split; [eauto|];
           unfold accumulated; rewrite !ticks_app, !map_app; simpl;
           rewrite ?app_nil_r; reflexivity);
      match goal with
      | |- context [BasicDemo.demo_loop_with _ _ _ ?l' ?s2] =>
          specialize (IH k l' s2 eq_refl)
      end;
      subst fuel; simpl in IH;
      destruct (first_exceeding max_duration _); simpl;
      destruct IH as [Hr Hacc]; (split; [exact Hr|]);
      rewrite Hacc; unfold accumulated; rewrite !ticks_app, !map_app; simpl;
      rewrite ?app_nil_r, <- ?app_assoc; reflexivity.
Qed.

Lemma basic_demo_scripted : forall r0 rs k,
  let r := run_from (W:=Scripted.world)
             (BasicDemo.basic_demo_with max_duration frame_delay
                (S (List.length rs + k)))
             (Scripted.clock_only (r0 :: rs)) in
  let totals := running_totals 0 (differences r0 rs) in
  match first_exceeding max_duration totals with
  | Some n =>
      (exists l, result_of r = Ret l) /\
      accumulated (history_of r) = firstn (S n) totals
  | None =>
      result_of r = Diverge /\ accumulated (history_of r) = totals
  end.
Proof.
  intros r0 rs k.
  pose proof (demo_loop_scripted rs k
                (BasicDemo.mkLocals r0 0 0)
                (mkState (Scripted.clock_only rs) (prologue r0)) eq_refl)
    as Hloop.
  cbv zeta in Hloop. cbv zeta.
  remember (S (List.length rs + k)) as fuel eqn:Efuel.
  unfold run_from, result_of, history_of, BasicDemo.basic_demo_with,
    try_except.
  rewrite demo_script_scripted.
  change (BasicDemo.demo_time (BasicDemo.mkLocals r0 0 0)) with 0 in Hloop.
  change (BasicDemo.last_time (BasicDemo.mkLocals r0 0 0)) with r0 in Hloop.
  change (accumulated (trace (mkState (Scripted.clock_only rs) (prologue r0))))
    with (@nil Q) in Hloop.
  destruct (first_exceeding max_duration _).
  - destruct Hloop as [(l' & Hr) Hacc].
    destruct (BasicDemo.demo_loop_with _ _ _ _ _) as [o s'].
    cbn [fst snd] in *. subst o. simpl. split; [eauto | exact Hacc].
  - destruct Hloop as [Hr Hacc].
    destruct (BasicDemo.demo_loop_with _ _ _ _ _) as [o s'].
    cbn [fst snd] in *. subst o. simpl. split; [reflexivity | exact Hacc].
Qed.
End DemoScripted.

(** C3, as the specification states it, fails at the limit itself: the
    demo tests [demo_time > 30.0].  With the clock at 0 before the loop
    and at 30 and 31 in the loop, the first iteration reaches a total of
    exactly 30 and a second iteration still runs. *)
Lemma C3_counterexample :
  let r := run_from (W:=Scripted.world) (BasicDemo.basic_demo 3)
                    (Scripted.clock_only [0; 30; 31]) in
  exists a rest,
    accumulated (history_of r) = a :: rest /\ 30 <= a /\ rest <> [].
Proof.
  exists (0 + (30 - 0)), [0 + (30 - 0) + (31 - 30)].
  split; [reflexivity|]. split; [|discriminate].
  intros Hlt. vm_compute in Hlt. discriminate.
Qed.

(** C3, amended.  With a limit D (30 seconds in the source):
    - on any host, no iteration follows the first one whose accumulated
      time is strictly greater than D, and the loop ends by its [break]
      (Completed) exactly when some iteration's accumulated time is
      strictly greater than D;
    - against a scripted clock [r0; r1; ...], with fuel for every
      reading, the demo ends by its [break] after exactly n+1 iterations
      when the (n+1)-th total is the first one above D, and never ends
      by its [break] when no total is above D;
    - with D = 0.25, a delay of 0.1 and the readings 0, 0.1, 0.2, 0.3,
      exactly 3 iterations run and the loop ends by its [break]. *)
Theorem C3_demo_stops_when_limit_exceeded :
  (forall (W : Type) (host : Host W) (max_duration frame_delay : Q)
          (fuel : nat) (w : W),
      let r := run_from
                 (BasicDemo.basic_demo_with max_duration frame_delay fuel) w in
      (forall pre a post,
          accumulated (history_of r) = pre ++ a :: post ->
          max_duration < a -> post = []) /\
      ((exists l, result_of r = Ret l) <->
       Exists (fun a => max_duration < a) (accumulated (history_of r)))) /\
  (forall (max_duration frame_delay r0 : Q) (rs : list Q) (k : nat),
      let r := run_from (W:=Scripted.world)
                 (BasicDemo.basic_demo_with max_duration frame_delay
                    (S (List.length rs + k)))
                 (Scripted.clock_only (r0 :: rs)) in
      let totals := running_totals 0 (differences r0 rs) in
      match first_exceeding max_duration totals with
      | Some n =>
          (exists l, result_of r = Ret l) /\
          accumulated (history_of r) = firstn (S n) totals
      | None =>
          result_of r = Diverge /\ accumulated (history_of r) = totals
      end) /\
  (let r := run_from (W:=Scripted.world)
              (BasicDemo.basic_demo_with (25 # 100) (1 # 10) 4)
              (Scripted.clock_only [0; 1 # 10; 2 # 10; 3 # 10]) in
   (exists l, result_of r = Ret l) /\ iterations (history_of r) = 3%nat).
Proof.
  split; [|split].
  - intros W host D delay fuel w. apply demo_exit.
  - intros D delay r0 rs k. apply basic_demo_scripted.
  - split; [eexists|]; reflexivity.
Qed.

(** ** Update before render *)

Example order_monitor_rejects_early_render :
  update_before_render [IsRunning true; Render TheApp; Update TheApp 0] = false.
Proof. reflexivity. Qed.

Example order_monitor_rejects_late_update :
  update_before_render
    [IsRunning true; Update TheApp 0; Render TheApp; Update TheApp 0] = false.
Proof. reflexivity. Qed.


(** ** Pacing *)

(** A host with a clock of its own: [time.time()] reads it, [time.sleep]
    advances it by the time slept, and presenting a frame takes [work]
    seconds.  The engine runs for a fixed number of frames.  The host
    keeps the time and the length of every sleep it is asked for. *)
Module Timed.

Record world : Type := mk {
  now : Q;
  frames_left : nat;
  work : Q;
  sleep_calls : list (Q * Q)
}.

Definition start (work : Q) (frames : nat) : world := mk 0 frames work [].

Definition sleep (d : Q) (w : world) : outcome unit * world :=
  (Ret tt,
   mk (now w + d) (frames_left w) (work w) (sleep_calls w ++ [(now w, d)])).

Definition is_running (w : world) : outcome bool * world :=
  match frames_left w with
  | O => (Ret false, w)
  | S n => (Ret true, mk (now w) n (work w) (sleep_calls w))
  end.

Definition graphics (c : gfx_cmd) (w : world) : outcome unit * world :=
  match c with
  | present =>
      (Ret tt, mk (now w + work w) (frames_left w) (work w) (sleep_calls w))
  | _ => (Ret tt, w)
  end.

#[global] Instance host : Host world := {
  import_nexus_engine w := (Ret tt, w);
  engine_new w := (Ret tt, w);
  engine_initialize w := (Ret true, w);
  engine_is_running := is_running;
  engine_get_delta_time w := (Ret 0, w);
  engine_shutdown w := (Ret tt, w);
  engine_get_input w := (Ret Scripted.no_keys, w);
  engine_get_graphics w := (Ret tt, w);
  graphics_call := graphics;
  time_time w := (Ret (now w), w);
  time_sleep := sleep
}.

End Timed.








(** ** The player and the ground *)

Lemma ground_collision_clamped : forall p,
  Player.touches_ground p = true ->
  Vector3.y (Player.position (Player.ground_collision p)) = 0 /\
  Vector3.y (Player.velocity (Player.ground_collision p)) = 0 /\
  Player.on_ground (Player.ground_collision p) = true.
Proof.
  intros p Ht. unfold Player.ground_collision. rewrite Ht. simpl. auto.
Qed.

Lemma ground_collision_above : forall p,
  0 <= Vector3.y (Player.position (Player.ground_collision p)).
Proof.
  intros p. unfold Player.ground_collision.
  destruct (Player.touches_ground p) eqn:Ht; simpl.
  - lra.
  - unfold Player.touches_ground in Ht.
    destruct (Qlt_le_dec 0 (Vector3.y (Player.position p))) as [Hlt|Hle].
    + lra.
    + apply Qle_bool_iff in Hle. congruence.
Qed.

(** C10.  After [Player.update], for any delta time (its sign plays no
    part) and any state of the keyboard, the player's height is at least
    0; when the ground test of line 41 fired, the vertical velocity is 0
    and [on_ground] is set; so the test [position.y < -10] of
    [PlatformerGame.update] is false on the updated player, and the game
    keeps the player that [Player.update] returned. *)
Theorem C10_player_never_below_ground :
  forall (delta_time : Q) (input_manager : InputManager) (self : Player.t),
    let self' := Player.update delta_time input_manager self in
    0 <= Vector3.y (Player.position self') /\
    (Player.touches_ground
       (Player.before_collision delta_time input_manager self) = true ->
     Vector3.y (Player.velocity self') = 0 /\ Player.on_ground self' = true) /\
    PlatformerGame.player_fell self' = false /\
    (forall (W : Type) (host : Host W) (game : PlatformerGame.t)
            (s s' : state W) (game' : PlatformerGame.t),
        PlatformerGame.update delta_time game s = (Ret game', s') ->
        exists keys,
          PlatformerGame.player game' =
          Player.update delta_time keys (PlatformerGame.player game)).
Proof.
  intros dt keys self self'.
  assert (Habove : 0 <= Vector3.y (Player.position self'))
    by apply ground_collision_above.
  split; [exact Habove|]. split; [|split].
  - intros Ht. apply ground_collision_clamped in Ht. tauto.
  - unfold PlatformerGame.player_fell. apply Qlt_bool_false. lra.
  - intros W host game s s' game' Hup.
    unfold PlatformerGame.update, bind, emit, call, ret in Hup. simpl in Hup.
    destruct (engine_get_input (world s)) as [[keys'| |] w]; simpl in Hup;
      try discriminate.
    exists keys'. inversion Hup; subst; clear Hup. simpl.
    assert (Hfell : PlatformerGame.player_fell
                      (Player.update dt keys' (PlatformerGame.player game))
                    = false).
    { unfold PlatformerGame.player_fell. apply Qlt_bool_false.
      pose proof (ground_collision_above
                    (Player.before_collision dt keys'
                       (PlatformerGame.player game))) as Hge.
      unfold Player.update. lra. }
    rewrite Hfell. reflexivity.
Qed.

(** ** What [run] checks at entry *)

(** C9, as the specification states it, fails: nothing is validated.  An
    application with no scene and the base class's empty [update] and
    [render] is run as it is: one iteration executes and [run] returns
    [True]. *)
Lemma C9_counterexample :
  let app := GameApplication.init "Nexus Game" 1280 720 in
  let r := run_from (W:=Scripted.world)
             (GameApplication.run GameApplication.defaults 3 app)
             (Scripted.mk [] [true; false] [1 # 60] Scripted.no_keys true) in
  (exists app', result_of r = Ret (true, app')) /\
  In (Update TheApp (1 # 60)) (history_of r) /\
  In (Render TheApp) (history_of r).
Proof.
  split; [eexists; reflexivity|].
  split; vm_compute; tauto.
Qed.

(** C9, amended.  The one condition detected at entry is a failed engine
    initialisation.  When the application is not running yet and
    [engine.initialize()] answers [False], [GameApplication.run] raises
    [RuntimeError] at once; in the same situation the platformer's [main]
    prints a message and returns.  In both cases nothing else has
    happened: no loop condition was evaluated and no callback ran. *)
Theorem C9_entry_checks_engine_initialisation :
  forall (W : Type) (host : Host W) (fuel : nat),
    (forall (code : GameApplication.Overrides W) (self : GameApplication.t)
            (s : state W) (w' : W),
        GameApplication.running self = false ->
        engine_initialize (world s) = (Ret false, w') ->
        GameApplication.run code fuel self s =
        (Raise (RuntimeError "Failed to initialize Nexus Engine"),
         mkState w' (trace s ++ [EngineInit false]))) /\
    (forall (s : state W) (w1 w2 : W),
        engine_new (world s) = (Ret tt, w1) ->
        engine_initialize w1 = (Ret false, w2) ->
        PlatformerMain.main fuel s =
        (Ret tt,
         mkState w2
           (trace s ++
            [Print (Text "Starting Python Platformer Game..."); EngineNew;
             EngineInit false; Print (Text "Failed to initialize engine!")]))).
Proof.
  intros W host fuel. split.
  - intros code self s w' Hrun Hinit.
    unfold GameApplication.run, GameApplication.run_entry,
      GameApplication.initialize, bind, call.
    rewrite Hrun. simpl. rewrite Hinit. reflexivity.
  - intros s w1 w2 Hnew Hinit.
    unfold PlatformerMain.main, bind, call, print, emit. simpl.
    rewrite Hnew. simpl. rewrite Hinit. simpl.
    rewrite <- !app_assoc. reflexivity.
Qed.

(** ** Iterations, one at a time *)

Section RunIterations.
Context {W : Type} `{Host W}.
Variable code : GameApplication.Overrides W.

Import GameApplication.

(** The loop condition of [run] holds: the state after its evaluation. *)
Definition enters (self : t) (s : state W) : option (state W) :=
  match call engine_is_running IsRunning s with
  | (Ret true, s1) => if running self then Some s1 else None
  | _ => None
  end.

(** Where the loop stands after [n] iterations that ran to their end. *)
Fixpoint iterations_done (n : nat) (self : t) (s : state W)
  : option (t * state W) :=
  match n with
  | O => Some (self, s)
  | S n' =>
      match enters self s with
      | Some s1 =>
          match run_body code self s1 with
          | (Ret self', s2) => iterations_done n' self' s2
          | _ => None
          end
      | None => None
      end
  end.

(** Where [run] stands when it reaches its loop. *)
Definition started (self : t) (s : state W) : option (t * state W) :=
  match run_entry self s with
  | (Ret (true, self0), s1) =>
      Some (self0,
            mkState (world s1) (trace s1 ++ [Print (StartingLine (title self0))]))
  | _ => None
  end.

Lemma enters_loop : forall fuel self s s1,
  enters self s = Some s1 ->
  run_loop code (S fuel) self s =
  bind (run_body code self) (run_loop code fuel) s1.
Proof.
  intros fuel self s s1 Hen. unfold enters in Hen. simpl. unfold bind at 1.
  destruct (call engine_is_running IsRunning s) as [[[|]| |] s'];
    try discriminate.
  destruct (running self); [|discriminate].
  inversion Hen; subst. reflexivity.
Qed.

Lemma run_loop_after_iterations : forall k fuel self s selfk sk,
  iterations_done k self s = Some (selfk, sk) ->
  run_loop code (k + fuel) self s = run_loop code fuel selfk sk.
Proof.
  induction k as [|k IH]; intros fuel self s selfk sk Hdone; simpl in Hdone.
  - inversion Hdone; subst. reflexivity.
  - destruct (enters self s) as [s1|] eqn:Hen; [|discriminate].
    destruct (run_body code self s1) as [[self'| |] s2] eqn:Hbody;
      try discriminate.
    change (S k + fuel)%nat with (S (k + fuel)).
    rewrite (enters_loop _ _ _ _ Hen). unfold bind. rewrite Hbody.
    apply IH. assumption.
Qed.

Lemma run_reaches_loop : forall fuel self s self0 s0,
  started self s = Some (self0, s0) ->
  run code fuel self s =
  bind (run_loop code fuel self0)
       (fun self' => bind (shutdown self') (fun self'' => ret (true, self'')))
       s0.
Proof.
  intros fuel self s self0 s0 Hst. unfold started in Hst.
  unfold run. unfold bind at 1.
  destruct (run_entry self s) as [[[[|] selfe]| |] s1]; try discriminate.
  inversion Hst; subst. reflexivity.
Qed.

End RunIterations.

Section MainIterations.
Context {W : Type} `{Host W}.

Import PlatformerMain.





End MainIterations.

(** ** A callback that fails *)


(** ** The callbacks of one iteration *)

Definition is_loop_callback (e : event) : bool :=
  match e with
  | Update who _ | Render who => is_loop_callee who
  | _ => false
  end.

(** The calls of the loop's own update and render callbacks, in order. *)
Definition loop_callbacks (h : list event) : list event :=
  filter is_loop_callback h.

(** The protocol that simply keeps the callbacks seen so far. *)
Inductive log_step : list event -> event -> list event -> Prop :=
| log_one : forall q e, log_step q e (q ++ loop_callbacks [e]).

Lemma steps_log : forall q evs q',
  steps log_step q evs q' -> q' = q ++ loop_callbacks evs.
Proof.
  induction 1 as [q|q e q1 evs q2 Hst Hsteps IH].
  - simpl. rewrite app_nil_r. reflexivity.
  - inversion Hst; subst. rewrite <- app_assoc.
    unfold loop_callbacks. rewrite <- filter_app. reflexivity.
Qed.

Section CallbackLog.
Context {W : Type} `{Host W}.
Variable code : GameApplication.Overrides W.

Import GameApplication.

Lemma log_quiet_call : forall A (op : W -> outcome A * W) (ev : A -> event) q,
  (forall a, is_loop_callback (ev a) = false) ->
  follows log_step q (call op ev) (fun _ q' => q' = q).
Proof.
  intros A op ev q Hq. eapply follows_weaken.
  - apply follows_call. intros a. eexists. constructor.
  - intros [a| |] q' Hst; simpl in Hst; try assumption.
    inversion Hst; subst. unfold loop_callbacks. simpl. rewrite Hq.
    apply app_nil_r.
Qed.

Lemma log_emit : forall e q,
  follows log_step q (emit (W:=W) e)
          (always (fun _ q' => q' = q ++ loop_callbacks [e])).
Proof.
  intros e q. eapply follows_weaken.
  - apply follows_emit. eexists. constructor.
  - intros [a| |] q' Hst; simpl in *; try contradiction.
    inversion Hst; subst. reflexivity.
Qed.

Lemma log_scene_update_objects : forall dt objs q,
  follows log_step q (scene_update_objects code dt objs) (fun _ q' => q' = q).
Proof.
  intros dt. induction objs as [|obj objs IH]; intros q; simpl.
  - apply follows_ret. reflexivity.
  - eapply follows_bind with (mid := fun _ q' => q' = q); auto.
    + destruct (GameObject.active obj).
      * eapply follows_bind; [apply log_emit | | intros ? ? [] | intros ? []].
        intros u q1 Hq1. simpl in Hq1. rewrite app_nil_r in Hq1. subst q1.
        apply follows_invoke.
      * apply follows_ret. reflexivity.
    + intros obj' q1 ->.
      eapply follows_bind; [apply IH | | auto | auto].
      intros rest' q1 ->. apply follows_ret. reflexivity.
Qed.

Lemma log_scene_render_objects : forall objs q,
  follows log_step q (scene_render_objects code objs) (fun _ q' => q' = q).
Proof.
  induction objs as [|obj objs IH]; intros q; simpl.
  - apply follows_ret. reflexivity.
  - eapply follows_bind with (mid := fun _ q' => q' = q); auto.
    + destruct (GameObject.active obj).
      * eapply follows_bind; [apply log_emit | | intros ? ? [] | intros ? []].
        intros u q1 Hq1. simpl in Hq1. rewrite app_nil_r in Hq1. subst q1.
        apply follows_invoke.
      * apply follows_ret. reflexivity.
    + intros obj' q1 ->.
      eapply follows_bind; [apply IH | | auto | auto].
      intros rest' q1 ->. apply follows_ret. reflexivity.
Qed.

Lemma log_update_current_scene : forall dt self q,
  follows log_step q (update_current_scene code dt self) (fun _ q' => q' = q).
Proof.
  intros dt self q. unfold update_current_scene, scene_update.
  destruct (current_scene self) as [scene|].
  - eapply follows_bind with (mid := fun _ q' => q' = q); auto.
    + eapply follows_bind; [apply log_scene_update_objects | | auto | auto].
      intros objs q1 ->. apply follows_ret. reflexivity.
    + intros scene' q1 ->. apply follows_ret. reflexivity.
  - apply follows_ret. reflexivity.
Qed.

Lemma log_render_current_scene : forall self q,
  follows log_step q (render_current_scene code self) (fun _ q' => q' = q).
Proof.
  intros self q. unfold render_current_scene, scene_render.
  destruct (current_scene self) as [scene|].
  - eapply follows_bind; [apply log_quiet_call; reflexivity | | auto | auto].
    intros u q1 ->.
    eapply follows_bind with (mid := fun _ q' => q' = q); auto.
    + eapply follows_bind; [apply log_scene_render_objects | | auto | auto].
      intros objs q1 ->. apply follows_ret. reflexivity.
    + intros scene' q1 ->. apply follows_ret. reflexivity.
  - apply follows_ret. reflexivity.
Qed.

Lemma log_run_body : forall self q,
  follows log_step q (run_body code self)
          (returns (fun _ q' =>
                      exists dt, q' = q ++ [Update TheApp dt; Render TheApp])).
Proof.
  intros self q. unfold run_body.
  eapply follows_bind;
    [apply log_quiet_call; reflexivity | | intros; exact I | intros; exact I].
  intros dt q1 ->.
  eapply follows_bind;
    [apply log_update_current_scene | | intros; exact I | intros; exact I].
  intros self1 q1 ->.
  eapply follows_bind with
    (mid := returns (fun _ q' => q' = q ++ [Update TheApp dt]));
    try (intros; exact I).
  - unfold custom_update.
    eapply follows_bind; [apply log_emit | | intros ? ? [] | intros ? []].
    intros u q1 Hq1. simpl in Hq1. subst q1.
    eapply follows_weaken; [apply follows_invoke|].
    intros [r| |] q'; simpl; auto.
  - intros self2 q1 Hq1. simpl in Hq1. subst q1.
    eapply follows_bind;
      [apply log_render_current_scene | | intros; exact I | intros; exact I].
    intros self3 q1 ->.
    eapply follows_bind with
      (mid := returns (fun _ q' =>
                         q' = (q ++ [Update TheApp dt]) ++ [Render TheApp]));
      try (intros; exact I).
    + unfold custom_render.
      eapply follows_bind; [apply log_emit | | intros ? ? [] | intros ? []].
      intros u q1 Hq1. simpl in Hq1. subst q1.
      eapply follows_weaken; [apply follows_invoke|].
      intros [r| |] q'; simpl; auto.
    + intros self4 q1 Hq1. simpl in Hq1. subst q1.
      eapply follows_bind;
        [apply log_quiet_call; reflexivity | | intros; exact I | intros; exact I].
      intros u q1 ->. apply follows_ret. simpl.
      exists dt. rewrite <- app_assoc. reflexivity.
Qed.

(** An iteration that runs to its end has called the update callback
    once and then the render callback once. *)
Lemma run_body_callbacks : forall self s self' s',
  run_body code self s = (Ret self', s') ->
  exists evs dt,
    trace s' = trace s ++ evs /\
    loop_callbacks evs = [Update TheApp dt; Render TheApp].
Proof.
  intros self s self' s' Hbody.
  destruct (log_run_body self [] s) as (evs & q' & Ht & Hsteps & Hpost).
  rewrite Hbody in Ht, Hpost. simpl in Ht, Hpost.
  destruct Hpost as (dt & Hq'). apply steps_log in Hsteps.
  exists evs, dt. split; [exact Ht|].
  simpl in Hsteps. congruence.
Qed.

End CallbackLog.

(** ** A stop requested during an iteration *)

Lemma call_returns_trace : forall W A (op : W -> outcome A * W)
                                  (ev : A -> event) s a s',
  call op ev s = (Ret a, s') -> trace s' = trace s ++ [ev a].
Proof.
  intros W A op ev s a s' Hcall. unfold call in Hcall.
  destruct (op (world s)) as [[a'| |] w]; inversion Hcall; subst.
  reflexivity.
Qed.

(** C7.  In [GameApplication.run], on any host and with any overriding
    methods, take the iteration that follows k completed ones, and let
    [running] be cleared while it executes (a callback has called
    [shutdown]) without anything failing.  Then
    - that iteration has run to its end: its update callback was called
      once and then its render callback once;
    - the flag is read when the loop condition is evaluated next, and
      the loop returns there: after the iteration the only thing
      recorded is that one evaluation, so no further iteration starts;
    - [run] then calls [shutdown] and returns [True] to its caller. *)
Theorem C7_stop_honoured_at_iteration_boundary :
  forall (W : Type) (host : Host W) (code : GameApplication.Overrides W)
         (k fuel : nat) (self : GameApplication.t) (s : state W)
         (selfk : GameApplication.t) (sk s1 : state W)
         (self' : GameApplication.t) (s2 : state W) (b : bool) (s3 : state W),
    iterations_done code k self s = Some (selfk, sk) ->
    enters selfk sk = Some s1 ->
    GameApplication.run_body code selfk s1 = (Ret self', s2) ->
    GameApplication.running self' = false ->
    call engine_is_running IsRunning s2 = (Ret b, s3) ->
    (exists evs dt,
        trace s2 = trace s1 ++ evs /\
        loop_callbacks evs = [Update TheApp dt; Render TheApp]) /\
    GameApplication.run_loop code (k + S (S fuel)) self s = (Ret self', s3) /\
    trace s3 = trace s2 ++ [IsRunning b] /\
    (forall (app : GameApplication.t) (s0 : state W) (w4 : W),
        started app s0 = Some (self, s) ->
        engine_shutdown (world s3) = (Ret tt, w4) ->
        GameApplication.run code (k + S (S fuel)) app s0 =
        (Ret (true, GameApplication.set_running false self'),
         mkState w4
           (trace s3 ++
            [EngineShutdown; Print (Text "Game shutdown complete")]))).
Proof.
  intros W host code k fuel self s selfk sk s1 self' s2 b s3
         Hdone Hen Hbody Hstop Hcheck.
  assert (Hloop : GameApplication.run_loop code (k + S (S fuel)) self s
                  = (Ret self', s3)).
  { rewrite (run_loop_after_iterations code _ _ _ _ _ _ Hdone).
    rewrite (enters_loop code _ _ _ _ Hen). unfold bind at 1. rewrite Hbody.
    simpl. unfold bind. rewrite Hcheck. rewrite Hstop, andb_false_r.
    reflexivity. }
  split; [|split; [|split]].
  - eapply run_body_callbacks. eassumption.
  - exact Hloop.
  - eapply call_returns_trace. eassumption.
  - intros app s0 w4 Hst Hsd.
    rewrite (run_reaches_loop code _ _ _ _ _ Hst). unfold bind at 1.
    rewrite Hloop. unfold GameApplication.shutdown, bind, call, print, emit, ret.
    simpl. rewrite Hsd. simpl. rewrite <- app_assoc. reflexivity.
Qed.

(** ** The theorems at concrete inputs *)

(** A host on which the user presses Ctrl-C while the keyboard is read
    for the ([patience]+1)-th time. *)
Module Interrupted.

Record world : Type := mk { patience : nat }.

Definition get_input (w : world) : outcome InputManager * world :=
  match patience w with
  | O => (Raise KeyboardInterrupt, w)
  | S n => (Ret Scripted.no_keys, mk n)
  end.

#[global] Instance host : Host world := {
  import_nexus_engine w := (Ret tt, w);
  engine_new w := (Ret tt, w);
  engine_initialize w := (Ret true, w);
  engine_is_running w := (Ret true, w);
  engine_get_delta_time w := (Ret (1 # 60), w);
  engine_shutdown w := (Ret tt, w);
  engine_get_input := get_input;
  engine_get_graphics w := (Ret tt, w);
  graphics_call _ w := (Ret tt, w);
  time_time w := (Ret 0, w);
  time_sleep _ w := (Ret tt, w)
}.

End Interrupted.

(** Overriding methods for the examples: an [update] that raises, a
    [render] that raises and an [update] that calls [shutdown], each
    once the engine reports a delta time of 2 or more. *)
Definition late (dt : Q) : bool := Qle_bool 2 dt.



Definition stopping_update : GameApplication.Overrides Scripted.world :=
  GameApplication.mkOverrides Scripted.world
    (fun obj _ w => (Ret obj, w))
    (fun obj w => (Ret obj, w))
    (fun dt self w =>
       if late dt
       then let (_, w') := engine_shutdown w in
            (Ret (GameApplication.set_running false self), w')
       else (Ret self, w))
    (fun self w => (Ret self, w)).

Definition test_app : GameApplication.t :=
  GameApplication.set_running true (GameApplication.init "Nexus Game" 1280 720).

Definition test_world : Scripted.world :=
  Scripted.mk [] [true; true; true; true] [1; 2; 3] Scripted.no_keys true.

Definition at_loop : state Scripted.world :=
  mkState test_world [Print (StartingLine "Nexus Game")].

Lemma C3_witness :
  let r := run_from (W:=Scripted.world)
             (BasicDemo.basic_demo_with (25 # 100) (1 # 10) 4)
             (Scripted.clock_only [0; 1 # 10; 2 # 10; 3 # 10]) in
  exists l, result_of r = Ret l.
Proof.
  intros r.
  destruct (proj1 C3_demo_stops_when_limit_exceeded
              Scripted.world Scripted.host (25 # 100) (1 # 10) 4%nat
              (Scripted.clock_only [0; 1 # 10; 2 # 10; 3 # 10]))
    as [_ [_ Hback]].
  apply Hback. vm_compute.
  do 2 apply Exists_cons_tl. apply Exists_cons_hd. reflexivity.
Defined.

Lemma C4_witness :
  let w := Scripted.mk [0; 1; 2] [true; false] [] Scripted.no_keys true in
  let demo := history_of (run_from (W:=Scripted.world) (BasicDemo.basic_demo 3) w) in
  let game := history_of (run_from (W:=Scripted.world) (PlatformerMain.main 3) w) in
  (Forall (fun d => 0 <= d) (deltas demo) /\
   nondecreasing (0 :: accumulated demo)) /\
  (Forall (fun d => 0 <= d) (deltas game) /\
   nondecreasing (0 :: accumulated game)).
Proof.
  intros w demo game.
  destruct (C4_monotone_clock_monotone_time Scripted.world Scripted.host 3 w)
    as [Hdemo Hgame].
  split; [apply Hdemo | apply Hgame]; vm_compute; intuition discriminate.
Defined.


Lemma C7_witness :
  exists self' s3 s4,
    GameApplication.run_loop stopping_update 5 test_app at_loop
    = (Ret self', s3) /\
    GameApplication.running self' = false /\
    loop_callbacks (trace s3)
    = [Update TheApp 1; Render TheApp; Update TheApp 2; Render TheApp] /\
    GameApplication.run stopping_update 5 test_app (mkState test_world [])
    = (Ret (true, GameApplication.set_running false self'), s4).
Proof.
  edestruct (C7_stop_honoured_at_iteration_boundary
               Scripted.world Scripted.host stopping_update
               1%nat 2%nat test_app at_loop)
    as (Hpair & Hloop & Htrace & Hrun).
  - vm_compute. reflexivity.
  - vm_compute. reflexivity.
  - vm_compute. reflexivity.
  - vm_compute. reflexivity.
  - vm_compute. reflexivity.
  - do 3 eexists. split; [exact Hloop|].
    split; [reflexivity|]. split; [vm_compute; reflexivity|].
    eapply Hrun.
    + vm_compute. reflexivity.
    + vm_compute. reflexivity.
Defined.

Lemma C9_witness :
  let w := Scripted.mk [] [true] [1] Scripted.no_keys false in
  GameApplication.run GameApplication.defaults 3
    (GameApplication.init "Nexus Game" 1280 720) (mkState w [])
  = (Raise (RuntimeError "Failed to initialize Nexus Engine"),
     mkState w [EngineInit false]) /\
  PlatformerMain.main 3 (mkState w [])
  = (Ret tt,
     mkState w
       [Print (Text "Starting Python Platformer Game..."); EngineNew;
        EngineInit false; Print (Text "Failed to initialize engine!")]).
Proof.
  intros w.
  destruct (C9_entry_checks_engine_initialisation Scripted.world Scripted.host 3)
    as [Hrun Hmain].
  split.
  - apply (Hrun GameApplication.defaults
                (GameApplication.init "Nexus Game" 1280 720) (mkState w []) w);
      reflexivity.
  - apply (Hmain (mkState w []) w w); reflexivity.
Defined.

Lemma C10_witness :
  let self' := Player.update (1 # 60) Scripted.no_keys Player.init in
  (Vector3.y (Player.velocity self') = 0 /\ Player.on_ground self' = true) /\
  exists game' s',
    PlatformerGame.update (1 # 60) PlatformerGame.init (mkState test_world [])
    = (Ret game', s') /\
    exists keys,
      PlatformerGame.player game' =
      Player.update (1 # 60) keys (PlatformerGame.player PlatformerGame.init).
Proof.
  intros self'.
  destruct (C10_player_never_below_ground (1 # 60) Scripted.no_keys Player.init)
    as (_ & Hclamp & _ & Hgame).
  split.
  - apply Hclamp. reflexivity.
  - do 2 eexists. split; [reflexivity|].
    eapply (Hgame Scripted.world Scripted.host); reflexivity.
Defined.

(** The platformer's [main] catches [KeyboardInterrupt] around its loop:
    the loop has stopped where the interrupt arrived, and [main] goes on
    to shut the engine down and returns. *)
Example main_interrupted :
  let r := run_from (W:=Interrupted.world) (PlatformerMain.main 5)
                    (Interrupted.mk 1) in
  result_of r = Ret tt /\
  loop_callbacks (history_of r)
  = [Update TheGame (0 - 0); Render TheGame; Update TheGame (0 - 0)] /\
  skipn (List.length (history_of r) - 3) (history_of r)
  = [Print (Text "Game interrupted by user"); EngineShutdown;
     Print (Text "Game ended. Thanks for playing!")].
Proof. repeat split. Qed.

(** * Further properties of the code *)

(** ** The player's motion *)

Lemma square_nonneg : forall x : Q, 0 <= x * x.
Proof. intros x. nra. Qed.

(** The same keyboard with the jump key released. *)
Definition without_jump (keys : InputManager) : InputManager :=
  mkInput (is_key_down keys) (fun _ => false).

Lemma horizontal_movement_on_ground : forall keys p,
  Player.on_ground (Player.horizontal_movement keys p) = Player.on_ground p.
Proof.
  intros keys p. unfold Player.horizontal_movement.
  destruct (is_key_down keys ord_A); [reflexivity|].
  destruct (is_key_down keys ord_D); reflexivity.
Qed.

(** X1.  No jump in the air: while [on_ground] is not set, the jump key
    has no effect on [Player.update]; the update is the one made with the
    key released, for every delta time and whatever else is held. *)
Theorem X1_no_jump_in_the_air :
  forall (delta_time : Q) (keys : InputManager) (self : Player.t),
    Player.on_ground self = false ->
    Player.update delta_time keys self =
    Player.update delta_time (without_jump keys) self.
Proof.
  intros dt keys self Hair.
  unfold Player.update, Player.before_collision, Player.jumping.
  rewrite !horizontal_movement_on_ground, Hair, andb_false_r.
  simpl. reflexivity.
Qed.

(** The flag [on_ground] is accurate when it means that the player lies
    on the ground with no vertical velocity. *)
Definition grounded_at_rest (p : Player.t) : Prop :=
  Player.on_ground p = true ->
  Vector3.y (Player.position p) = 0 /\ Vector3.y (Player.velocity p) = 0.

Lemma before_collision_on_ground : forall dt keys p,
  Player.on_ground (Player.before_collision dt keys p) =
  Player.on_ground (Player.jumping keys (Player.horizontal_movement keys p)).
Proof. reflexivity. Qed.

Lemma horizontal_movement_vertical : forall keys p,
  Vector3.y (Player.position (Player.horizontal_movement keys p)) =
  Vector3.y (Player.position p) /\
  Vector3.y (Player.velocity (Player.horizontal_movement keys p)) =
  Vector3.y (Player.velocity p) /\
  Player.jump_force (Player.horizontal_movement keys p) = Player.jump_force p.
Proof.
  intros keys p. unfold Player.horizontal_movement.
  destruct (is_key_down keys ord_A); [simpl; auto|].
  destruct (is_key_down keys ord_D); simpl; auto.
Qed.

(** The height and the vertical velocity with which the player reaches
    the ground test, in terms of the player before the update. *)
Lemma before_collision_vertical : forall dt keys p,
  let jumps := is_key_pressed keys ord_space && Player.on_ground p in
  let v0 := if jumps then Player.jump_force p
            else Vector3.y (Player.velocity p) in
  Vector3.y (Player.velocity (Player.before_collision dt keys p)) =
  v0 - 25 * dt /\
  Vector3.y (Player.position (Player.before_collision dt keys p)) =
  Vector3.y (Player.position p) + (v0 - 25 * dt) * dt /\
  Player.on_ground (Player.before_collision dt keys p) =
  (if jumps then false else Player.on_ground p).
Proof.
  intros dt keys p.
  destruct (horizontal_movement_vertical keys p) as (Hy & Hv & Hj).
  pose proof (horizontal_movement_on_ground keys p) as Hg.
  unfold Player.before_collision, Player.jumping.
  rewrite Hg.
  destruct (is_key_pressed keys ord_space && Player.on_ground p);
    simpl; rewrite ?Hy, ?Hv, ?Hj, ?Hg; auto.
Qed.

Lemma update_grounded_at_rest : forall dt keys self,
  grounded_at_rest self -> grounded_at_rest (Player.update dt keys self).
Proof.
  intros dt keys self Hrest Hg.
  unfold Player.update, Player.ground_collision in *.
  destruct (Player.touches_ground (Player.before_collision dt keys self))
    eqn:Htouch; [simpl; auto|].
  exfalso.
  destruct (before_collision_vertical dt keys self) as (Hv & Hy & Hon).
  cbv zeta in Hv, Hy, Hon. rewrite Hg in Hon.
  destruct (is_key_pressed keys ord_space && Player.on_ground self) eqn:Hjump;
    [discriminate|].
  symmetry in Hon. destruct (Hrest Hon) as [Hy0 Hv0].
  unfold Player.touches_ground in Htouch. rewrite Hy, Hy0, Hv0 in Htouch.
  assert (Hle : 0 + (0 - 25 * dt) * dt <= 0) by nra.
  apply Qle_bool_iff in Hle. congruence.
Qed.

(** The player after a sequence of updates, one per frame. *)
Fixpoint play (frames : list (Q * InputManager)) (p : Player.t) : Player.t :=
  match frames with
  | [] => p
  | (delta_time, keys) :: rest => play rest (Player.update delta_time keys p)
  end.

(** Height plus the height the vertical velocity can still gain under a
    gravity of 25. *)
Definition reach (p : Player.t) : Q :=
  Vector3.y (Player.position p) +
  Vector3.y (Player.velocity p) * Vector3.y (Player.velocity p) * (1 # 50).

Definition within_jump (p : Player.t) : Prop :=
  Player.jump_force p = 12 /\
  grounded_at_rest p /\
  0 <= Vector3.y (Player.position p) /\
  reach p <= 72 # 25.

Lemma update_jump_force : forall dt keys p,
  Player.jump_force (Player.update dt keys p) = Player.jump_force p.
Proof.
  intros dt keys p.
  destruct (horizontal_movement_vertical keys p) as (_ & _ & Hj).
  unfold Player.update, Player.ground_collision, Player.before_collision,
    Player.jumping.
  destruct (Player.touches_ground _);
    destruct (is_key_pressed keys ord_space && _); simpl; exact Hj.
Qed.

Lemma update_within_jump : forall dt keys p,
  within_jump p -> within_jump (Player.update dt keys p).
Proof.
  intros dt keys p (Hjf & Hrest & Hy0 & Hreach).
  split; [rewrite update_jump_force; exact Hjf|].
  split; [apply update_grounded_at_rest; exact Hrest|].
  split; [apply ground_collision_above|].
  unfold reach, Player.update, Player.ground_collision.
  destruct (Player.touches_ground (Player.before_collision dt keys p))
    eqn:Htouch; [simpl; lra|].
  destruct (before_collision_vertical dt keys p) as (Hv & Hy & _).
  cbv zeta in Hv, Hy. rewrite Hv, Hy.
  unfold reach in Hreach.
  destruct (is_key_pressed keys ord_space && Player.on_ground p) eqn:Hjump.
  - apply andb_prop in Hjump. destruct Hjump as [_ Hg].
    destruct (Hrest Hg) as [Hy1 _]. rewrite Hy1, Hjf. nra.
  - nra.
Qed.

Lemma play_within_jump : forall frames p,
  within_jump p -> within_jump (play frames p).
Proof.
  induction frames as [|[dt keys] frames IH]; intros p Hp; simpl.
  - exact Hp.
  - apply IH, update_within_jump, Hp.
Qed.

Lemma init_within_jump : within_jump Player.init.
Proof.
  unfold within_jump, reach, grounded_at_rest. simpl.
  repeat split; try lra; discriminate.
Qed.

(** X2.  The flag [on_ground] is accurate: after any sequence of
    updates of a new player, with any delta times and keys, a player
    whose flag is set is at height 0 with vertical velocity 0. *)
Theorem X2_on_ground_means_at_rest :
  forall frames : list (Q * InputManager),
    let p := play frames Player.init in
    Player.on_ground p = true ->
    Vector3.y (Player.position p) = 0 /\ Vector3.y (Player.velocity p) = 0.
Proof.
  intros frames p Hg.
  destruct (play_within_jump frames Player.init init_within_jump)
    as (_ & Hrest & _).
  apply Hrest. exact Hg.
Qed.

(** X3.  However long the frames are and whatever keys are held, a new
    player that is only ever moved by [Player.update] stays between
    height 0 and height 72/25 = 2.88, the apex of a jump with force 12
    under gravity 25. *)
Theorem X3_jump_height_is_bounded :
  forall frames : list (Q * InputManager),
    let p := play frames Player.init in
    0 <= Vector3.y (Player.position p) /\
    Vector3.y (Player.position p) <= 72 # 25.
Proof.
  intros frames p.
  destruct (play_within_jump frames Player.init init_within_jump)
    as (_ & _ & Hy & Hreach).
  fold p in Hy, Hreach. split; [exact Hy|].
  unfold reach in Hreach.
  pose proof (square_nonneg (Vector3.y (Player.velocity p))) as Hsq.
  lra.
Qed.

Lemma update_horizontal : forall dt keys p,
  let vx := Vector3.x (Player.velocity (Player.horizontal_movement keys p)) in
  Vector3.x (Player.velocity (Player.update dt keys p)) = vx /\
  Vector3.x (Player.position (Player.update dt keys p)) =
  Vector3.x (Player.position p) + vx * dt /\
  Player.speed (Player.update dt keys p) = Player.speed p.
Proof.
  intros dt keys p vx. subst vx.
  unfold Player.update, Player.ground_collision, Player.before_collision,
    Player.jumping, Player.horizontal_movement.
  destruct (Player.touches_ground _);
    destruct (is_key_down keys ord_A); destruct (is_key_down keys ord_D);
    destruct (is_key_pressed keys ord_space); simpl;
    destruct (Player.on_ground p); simpl; repeat split; reflexivity.
Qed.

(** X4.  [Player.update] never changes [speed].  With a non-negative
    [speed] and a horizontal velocity within [-speed, speed] before the
    update, the horizontal velocity is within [-speed, speed] after it:
    it is [-speed] when A is down (also when D is down too), [speed]
    when only D is down, and 8/10 of its former value otherwise; the
    horizontal position advances by the new velocity times the delta
    time. *)
Theorem X4_horizontal_speed_is_bounded :
  forall (delta_time : Q) (keys : InputManager) (self : Player.t),
    0 <= Player.speed self ->
    - Player.speed self <= Vector3.x (Player.velocity self) ->
    Vector3.x (Player.velocity self) <= Player.speed self ->
    let self' := Player.update delta_time keys self in
    let vx' := Vector3.x (Player.velocity self') in
    Player.speed self' = Player.speed self /\
    - Player.speed self <= vx' /\ vx' <= Player.speed self /\
    vx' = (if is_key_down keys ord_A then - Player.speed self
           else if is_key_down keys ord_D then Player.speed self
                else Vector3.x (Player.velocity self) * (8 # 10)) /\
    Vector3.x (Player.position self') =
    Vector3.x (Player.position self) + vx' * delta_time.
Proof.
  intros dt keys self Hs Hlo Hhi self' vx'.
  destruct (update_horizontal dt keys self) as (Hv & Hx & Hsp).
  cbv zeta in Hv, Hx. fold self' in Hv, Hx, Hsp. fold vx' in Hv.
  assert (Hcase : vx' = (if is_key_down keys ord_A then - Player.speed self
                         else if is_key_down keys ord_D then Player.speed self
                              else Vector3.x (Player.velocity self) * (8 # 10))).
  { rewrite Hv. unfold Player.horizontal_movement.
    destruct (is_key_down keys ord_A); [reflexivity|].
    destruct (is_key_down keys ord_D); reflexivity. }
  split; [exact Hsp|].
  assert (Hin : - Player.speed self <= vx' /\ vx' <= Player.speed self).
  { rewrite Hcase.
    destruct (is_key_down keys ord_A); [lra|].
    destruct (is_key_down keys ord_D); lra. }
  destruct Hin as [Hl Hh].
  repeat split; try assumption.
  rewrite Hx, <- Hv. reflexivity.
Qed.

(** X5.  A player resting on the ground (flag set, height 0), with a
    positive jump force:
    - when the jump key is pressed, the player leaves the ground in this
      update exactly when the delta time is positive and below
      [jump_force / 25]; with a delta time of zero, or one that long, the
      jump is lost and the player is on the ground again;
    - when the jump key is not pressed and the player has no vertical
      velocity, the player stays on the ground at height 0 with no
      vertical velocity, for every delta time. *)
Theorem X5_jump_from_rest :
  forall (delta_time : Q) (keys : InputManager) (self : Player.t),
    Player.on_ground self = true ->
    Vector3.y (Player.position self) == 0 ->
    0 < Player.jump_force self ->
    let self' := Player.update delta_time keys self in
    (is_key_pressed keys ord_space = true ->
     (Player.on_ground self' = false <->
      0 < delta_time /\ 25 * delta_time < Player.jump_force self)) /\
    (is_key_pressed keys ord_space = false ->
     Vector3.y (Player.velocity self) == 0 ->
     Player.on_ground self' = true /\
     Vector3.y (Player.position self') = 0 /\
     Vector3.y (Player.velocity self') = 0).
Proof.
  intros dt keys self Hg Hy0 Hjf self'.
  destruct (before_collision_vertical dt keys self) as (Hv & Hy & Hon).
  cbv zeta in Hv, Hy, Hon. rewrite Hg, andb_true_r in Hv, Hy, Hon.
  unfold self', Player.update, Player.ground_collision, Player.touches_ground.
  split.
  - intros Hkey. rewrite Hkey in Hv, Hy, Hon. rewrite Hy.
    destruct (Qle_bool _ 0) eqn:Htouch.
    + apply Qle_bool_iff in Htouch. simpl. split; [discriminate|].
      intros [Hpos Hshort]. exfalso. nra.
    + rewrite Hon. split; [|reflexivity]. intros _.
      assert (Hup : ~ Vector3.y (Player.position self) +
                      (Player.jump_force self - 25 * dt) * dt <= 0).
      { intros Hle. apply Qle_bool_iff in Hle. congruence. }
      assert (Hdt : 0 < dt).
      { destruct (Qlt_le_dec 0 dt) as [Hlt|Hle]; [exact Hlt|].
        exfalso. apply Hup. nra. }
      split; [exact Hdt|].
      destruct (Qlt_le_dec (25 * dt) (Player.jump_force self)) as [Hlt|Hle];
        [exact Hlt|].
      exfalso. apply Hup. nra.
  - intros Hkey Hv0. rewrite Hkey in Hv, Hy, Hon. rewrite Hy.
    assert (Hle : Vector3.y (Player.position self) +
                  (Vector3.y (Player.velocity self) - 25 * dt) * dt <= 0)
      by nra.
    apply Qle_bool_iff in Hle. rewrite Hle. simpl. auto.
Qed.

(** ** Computations that log only events of a kind *)

Definition only_logs {W A} (ok : event -> bool) (m : M W A) : Prop :=
  forall s, exists evs,
    trace (snd (m s)) = trace s ++ evs /\ forallb ok evs = true.

Section OnlyLogs.
Context {W : Type} `{Host W}.
Variable ok : event -> bool.

Lemma only_logs_ret : forall A (a : A), only_logs (W:=W) ok (ret a).
Proof. intros A a s. exists []. simpl. rewrite app_nil_r. auto. Qed.

Lemma only_logs_raise : forall A e, only_logs (W:=W) (A:=A) ok (raise e).
Proof. intros A e s. exists []. simpl. rewrite app_nil_r. auto. Qed.

Lemma only_logs_diverge : forall A, only_logs (W:=W) (A:=A) ok diverge.
Proof. intros A s. exists []. simpl. rewrite app_nil_r. auto. Qed.

Lemma only_logs_bind : forall A B (m : M W A) (f : A -> M W B),
  only_logs ok m -> (forall a, only_logs ok (f a)) -> only_logs ok (bind m f).
Proof.
  intros A B m f Hm Hf s. destruct (Hm s) as (evs1 & Ht1 & Ha1).
  unfold bind. destruct (m s) as [[a|e|] s1]; simpl in *.
  - destruct (Hf a s1) as (evs2 & Ht2 & Ha2).
    exists (evs1 ++ evs2). split.
    + rewrite Ht2, Ht1, app_assoc. reflexivity.
    + rewrite forallb_app, Ha1, Ha2. reflexivity.
  - exists evs1. auto.
  - exists evs1. auto.
Qed.

Lemma only_logs_emit : forall e, ok e = true -> only_logs (W:=W) ok (emit e).
Proof. intros e He s. exists [e]. simpl. rewrite He. auto. Qed.

Lemma only_logs_call : forall A (op : W -> outcome A * W) (ev : A -> event),
  (forall a, ok (ev a) = true) -> only_logs ok (call op ev).
Proof.
  intros A op ev Hev s. unfold call.
  destruct (op (world s)) as [[a|e|] w]; simpl.
  - exists [ev a]. simpl. rewrite Hev. auto.
  - exists []. rewrite app_nil_r. auto.
  - exists []. rewrite app_nil_r. auto.
Qed.

Lemma only_logs_invoke : forall A (cb : W -> outcome A * W),
  only_logs ok (invoke cb).
Proof.
  intros A cb s. unfold invoke. destruct (cb (world s)) as [o w]. simpl.
  exists []. rewrite app_nil_r. auto.
Qed.

Lemma only_logs_try_except : forall A (m : M W A) (catches : exn -> bool)
                                    (handler : exn -> M W A),
  only_logs ok m -> (forall e, only_logs ok (handler e)) ->
  only_logs ok (try_except m catches handler).
Proof.
  intros A m catches handler Hm Hh s. destruct (Hm s) as (evs1 & Ht1 & Ha1).
  unfold try_except. destruct (m s) as [[a|e|] s1]; simpl in *.
  - exists evs1. auto.
  - destruct (catches e).
    + destruct (Hh e s1) as (evs2 & Ht2 & Ha2).
      exists (evs1 ++ evs2). split.
      * rewrite Ht2, Ht1, app_assoc. reflexivity.
      * rewrite forallb_app, Ha1, Ha2. reflexivity.
    + exists evs1. auto.
  - exists evs1. auto.
Qed.


End OnlyLogs.

Lemma only_logs_weaken : forall W A (ok ok' : event -> bool) (m : M W A),
  (forall e, ok e = true -> ok' e = true) ->
  only_logs ok m -> only_logs ok' m.
Proof.
  intros W A ok ok' m Himp Hm s. destruct (Hm s) as (evs & Ht & Hall).
  exists evs. split; [exact Ht|].
  rewrite forallb_forall in *. auto.
Qed.

Lemma only_logs_follows : forall W (host : Host W) P
                                 (step : P -> event -> P -> Prop)
                                 (ok : event -> bool) A (m : M W A) q,
  (forall q e, ok e = true -> step q e q) ->
  only_logs ok m ->
  follows step q m (fun _ q' => q' = q).
Proof.
  intros W host P step ok A m q Hstep Hm s.
  destruct (Hm s) as (evs & Ht & Hall).
  exists evs, q. repeat split; [exact Ht|].
  clear Ht. induction evs as [|e evs IH]; [constructor|].
  simpl in Hall. apply andb_prop in Hall. destruct Hall as [He Hall].
  econstructor; [apply Hstep; exact He | apply IH; exact Hall].
Qed.

Lemma only_logs_run : forall W (host : Host W) (ok : event -> bool) A
                             (m : M W A) w,
  only_logs ok m -> forallb ok (history_of (run_from m w)) = true.
Proof.
  intros W host ok A m w Hm.
  destruct (Hm (mkState w [])) as (evs & Ht & Hall).
  unfold history_of, run_from. simpl in Ht. rewrite Ht. exact Hall.
Qed.

(** Goals of the form [only_logs ok m] for straight-line code. *)
Ltac logs_only :=
  repeat first
    [ apply only_logs_ret
    | apply only_logs_raise
    | apply only_logs_diverge
    | apply only_logs_invoke
    | apply only_logs_emit; reflexivity
    | apply only_logs_call; intros; reflexivity
    | apply only_logs_bind; [|intros] ].

(** A normal return of [bind] is a normal return of both parts. *)
Lemma bind_returns : forall W A B (m : M W A) (f : A -> M W B) s b s',
  bind m f s = (Ret b, s') ->
  exists a s1, m s = (Ret a, s1) /\ f a s1 = (Ret b, s').
Proof.
  intros W A B m f s b s' Hb. unfold bind in Hb.
  destruct (m s) as [[a|e|] s1]; try discriminate. eauto.
Qed.

(** ** The score *)

Lemma py_int_bounds : forall x,
  0 <= x -> x <= 144 # 5 -> (0 <= py_int x <= 28)%Z.
Proof.
  intros [n d] H0 H1. unfold py_int, Qle in *. simpl in *.
  rewrite Z.quot_div_nonneg by lia. split.
  - apply Z.div_pos; lia.
  - assert (n / Z.pos d < 29)%Z; [|lia].
    apply Z.div_lt_upper_bound; lia.
Qed.

(** What [PlatformerGame.update] leaves when it returns. *)
Lemma game_update_returns : forall W (host : Host W) dt g (s s' : state W) g',
  PlatformerGame.update dt g s = (Ret g', s') ->
  exists keys,
    PlatformerGame.player g' = Player.update dt keys (PlatformerGame.player g) /\
    PlatformerGame.score g' =
    Z.max (PlatformerGame.score g)
          (Z.max 0 (py_int (Vector3.y (Player.position
                                         (PlatformerGame.player g')) * 10))) /\
    PlatformerGame.platforms g' = PlatformerGame.platforms g /\
    PlatformerGame.camera_offset g' = PlatformerGame.camera_offset g /\
    PlatformerGame.game_time g' = PlatformerGame.game_time g + dt.
Proof.
  intros W host dt g s s' g' Hup.
  unfold PlatformerGame.update, bind, emit, call, ret in Hup. simpl in Hup.
  destruct (engine_get_input (world s)) as [[keys| |] w]; simpl in Hup;
    try discriminate.
  exists keys. inversion Hup; subst; clear Hup. simpl.
  assert (Hfell : PlatformerGame.player_fell
                    (Player.update dt keys (PlatformerGame.player g)) = false).
  { unfold PlatformerGame.player_fell. apply Qlt_bool_false.
    pose proof (ground_collision_above
                  (Player.before_collision dt keys (PlatformerGame.player g)))
      as Hge.
    unfold Player.update. lra. }
  rewrite Hfell. repeat split; reflexivity.
Qed.

(** A game whose player is within a jump of the ground and whose score is
    between 0 and 28. *)
Definition game_sound (g : PlatformerGame.t) : Prop :=
  within_jump (PlatformerGame.player g) /\
  (0 <= PlatformerGame.score g <= 28)%Z.

Lemma init_game_sound : game_sound PlatformerGame.init.
Proof. split; [exact init_within_jump | simpl; lia]. Qed.

Lemma within_jump_height : forall p,
  within_jump p ->
  0 <= Vector3.y (Player.position p) /\ Vector3.y (Player.position p) <= 72 # 25.
Proof.
  intros p (_ & _ & Hy & Hreach). split; [exact Hy|].
  unfold reach in Hreach.
  pose proof (square_nonneg (Vector3.y (Player.velocity p))). lra.
Qed.

Lemma game_update_sound : forall W (host : Host W) dt g (s s' : state W) g',
  PlatformerGame.update dt g s = (Ret g', s') ->
  game_sound g ->
  game_sound g' /\ (PlatformerGame.score g <= PlatformerGame.score g')%Z.
Proof.
  intros W host dt g s s' g' Hup [Hp Hs].
  destruct (game_update_returns _ _ _ _ _ _ _ Hup)
    as (keys & Hplayer & Hscore & _).
  assert (Hp' : within_jump (PlatformerGame.player g')).
  { rewrite Hplayer. apply update_within_jump. exact Hp. }
  destruct (within_jump_height _ Hp') as [Hlo Hhi].
  assert (Hint : (0 <= py_int (Vector3.y (Player.position
                                            (PlatformerGame.player g')) * 10)
                  <= 28)%Z).
  { apply py_int_bounds; lra. }
  split; [split; [exact Hp'|] |]; rewrite Hscore; lia.
Qed.

(** A computation that logs only events a protocol lets pass keeps the
    phase, and what it returns can be read off its equation. *)
Lemma follows_of_logs : forall W (host : Host W) P
                               (step : P -> event -> P -> Prop)
                               (ok : event -> bool) A (m : M W A) q
                               (R : A -> Prop),
  (forall q e, ok e = true -> step q e q) ->
  only_logs ok m ->
  (forall s a s', m s = (Ret a, s') -> R a) ->
  follows step q m (returns (fun a q' => q' = q /\ R a)).
Proof.
  intros W host P step ok A m q R Hstep Hm HR s.
  destruct (only_logs_follows W host P step ok A m q Hstep Hm s)
    as (evs & q' & Ht & Hs & Hq).
  exists evs, q'. repeat split; try assumption.
  destruct (m s) as [[a| |] s'] eqn:Hms; simpl; auto.
  split; [exact Hq | eapply HR; exact Hms].
Qed.

(** The score drawn by an event, if it draws one. *)
Definition shows_score (e : event) : option Z :=
  match e with
  | Gfx (draw_text (ScoreLine n) _ _ _) => Some n
  | _ => None
  end.

Definition no_score (e : event) : bool :=
  match shows_score e with
  | Some _ => false
  | None => true
  end.

Fixpoint scores_shown (h : list event) : list Z :=
  match h with
  | [] => []
  | e :: h' =>
      match shows_score e with
      | Some n => n :: scores_shown h'
      | None => scores_shown h'
      end
  end.

(** Scores that start at [lo] or above, never decrease and never pass
    28. *)
Fixpoint ascending (lo : Z) (l : list Z) : Prop :=
  match l with
  | [] => True
  | n :: l' => (lo <= n <= 28)%Z /\ ascending n l'
  end.

Module ScoreProtocol.

Import PlatformerMain.

Inductive step : Z -> event -> Z -> Prop :=
| shown : forall q n x y c,
    (q <= n <= 28)%Z ->
    step q (Gfx (draw_text (ScoreLine n) x y c)) n
| kept : forall q e, no_score e = true -> step q e q.

Lemma steps_ascending : forall q h q',
  steps step q h q' -> ascending q (scores_shown h).
Proof.
  induction 1 as [q|q e q1 h q2 Hst Hsteps IH]; simpl; [exact I|].
  inversion Hst; subst; simpl.
  - split; assumption.
  - unfold no_score in *. destruct (shows_score e); [discriminate | exact IH].
Qed.

Section Refinement.
Context {W : Type} `{Host W}.

Lemma logs_render_platforms : forall ps,
  only_logs no_score (PlatformerGame.render_platforms ps).
Proof.
  induction ps as [|p ps IH]; simpl.
  - apply only_logs_ret.
  - apply only_logs_bind; [|intros _; exact IH].
    unfold Platform.render, gfx. logs_only.
Qed.

Lemma score_render_follows : forall g q,
  (q <= PlatformerGame.score g <= 28)%Z ->
  follows step q (PlatformerGame.render g)
          (returns (fun _ q' => q' = PlatformerGame.score g)).
Proof.
  intros g q Hq. unfold PlatformerGame.render.
  eapply follows_bind;
    [ apply (only_logs_follows _ _ _ step no_score); [exact kept|];
      unfold get_graphics; logs_only
    | intros ? ? -> | intros; exact I | intros; exact I ].
  eapply follows_bind;
    [ apply (only_logs_follows _ _ _ step no_score); [exact kept|];
      unfold gfx; logs_only
    | intros ? ? -> | intros; exact I | intros; exact I ].
  eapply follows_bind;
    [ apply (only_logs_follows _ _ _ step no_score); [exact kept|];
      apply logs_render_platforms
    | intros ? ? -> | intros; exact I | intros; exact I ].
  eapply follows_bind;
    [ apply (only_logs_follows _ _ _ step no_score); [exact kept|];
      unfold Player.render, gfx; logs_only
    | intros ? ? -> | intros; exact I | intros; exact I ].
  unfold PlatformerGame.render_ui, gfx.
  run_call ltac:(apply shown; exact Hq); try exact I.
  eapply follows_weaken.
  - apply (only_logs_follows _ _ _ step no_score); [exact kept|]. logs_only.
  - intros [r| |] q'; simpl; auto.
Qed.

Lemma score_main_body_follows : forall clock game q,
  game_sound game -> (q <= PlatformerGame.score game)%Z ->
  follows step q (main_body clock game)
          (returns (fun r q' => game_sound (snd r) /\
                                (q' <= PlatformerGame.score (snd r))%Z)).
Proof.
  intros clock game q Hsound Hq. unfold main_body.
  run_call ltac:(apply kept; reflexivity); try exact I.
  run_emit ltac:(apply kept; reflexivity).
  eapply follows_bind;
    [ apply (follows_of_logs _ _ _ step no_score _ _ _
               (fun g' => game_sound g' /\
                          (PlatformerGame.score game <= PlatformerGame.score g')%Z));
      [ exact kept
      | unfold PlatformerGame.update; logs_only
      | intros s g' s' Hup; eapply game_update_sound; eassumption ]
    | | intros; exact I | intros; exact I ].
  intros game' q1 (-> & Hsound' & Hle). simpl.
  eapply follows_bind;
    [ apply (only_logs_follows _ _ _ step no_score); [exact kept|];
      unfold get_graphics; logs_only
    | intros ? ? -> | intros; exact I | intros; exact I ].
  eapply follows_bind;
    [ apply (only_logs_follows _ _ _ step no_score); [exact kept|];
      unfold gfx; logs_only
    | intros ? ? -> | intros; exact I | intros; exact I ].
  run_emit ltac:(apply kept; reflexivity).
  eapply follows_bind;
    [ apply score_render_follows; destruct Hsound' as [_ Hs]; lia
    | | intros; exact I | intros; exact I ].
  intros u q2 Hq2. simpl in Hq2. subst q2.
  do 3 (eapply follows_bind;
        [ apply (only_logs_follows _ _ _ step no_score); [exact kept|];
          unfold gfx; logs_only
        | intros ? ? -> | intros; exact I | intros; exact I ]).
  apply follows_ret. simpl. split; [exact Hsound' | lia].
Qed.

Lemma score_main_loop_follows : forall fuel clock game q,
  game_sound game -> (q <= PlatformerGame.score game)%Z ->
  follows step q (main_loop fuel clock game) (fun _ _ => True).
Proof.
  induction fuel as [|fuel IH]; intros clock game q Hsound Hq; simpl.
  - apply follows_diverge. exact I.
  - run_call ltac:(apply kept; reflexivity); try exact I.
    destruct a.
    + eapply follows_bind;
        [ apply score_main_body_follows; eassumption
        | | intros; exact I | intros; exact I ].
      intros [c g'] q2 [Hsound' Hq2]. simpl in *. apply IH; assumption.
    + apply follows_ret. exact I.
Qed.

Lemma score_main_follows : forall fuel,
  follows step 0%Z (main fuel) (fun _ _ => True).
Proof.
  intros fuel. unfold main, print.
  run_emit ltac:(apply kept; reflexivity).
  run_call ltac:(apply kept; reflexivity); try exact I.
  run_call ltac:(apply kept; reflexivity); try exact I.
  destruct a1; simpl.
  - run_emit ltac:(apply kept; reflexivity).
    run_emit ltac:(apply kept; reflexivity).
    run_call ltac:(apply kept; reflexivity); try exact I.
    eapply follows_bind with (mid := fun _ _ => True);
      try (intros; exact I).
    + eapply follows_try_except with (mid := fun _ _ => True);
        try (intros; exact I).
      * eapply follows_bind;
          [ apply score_main_loop_follows;
            [exact init_game_sound | simpl; lia]
          | | intros; exact I | intros; exact I ].
        intros r q2 _. apply follows_ret. exact I.
      * intros e q2 _. destruct (is_KeyboardInterrupt e); [|exact I].
        eapply follows_last_emit; [apply kept; reflexivity | exact I].
    + intros u q2 _.
      run_call ltac:(apply kept; reflexivity); try exact I.
      eapply follows_last_emit; [apply kept; reflexivity | exact I].
  - run_emit ltac:(apply kept; reflexivity).
    apply follows_ret. exact I.
Qed.

End Refinement.
End ScoreProtocol.

(** X6.  In every run of the platformer's [main], on any host: the
    scores drawn on screen start at 0 or above, never decrease from one
    frame to the next and never exceed 28 (ten times the greatest height
    a jump reaches, 2.88, truncated). *)
Theorem X6_score_shown_ascends_to_28_at_most :
  forall (W : Type) (host : Host W) (fuel : nat) (w : W),
    ascending 0 (scores_shown (history_of (run_from (PlatformerMain.main fuel) w))).
Proof.
  intros W host fuel w.
  destruct (follows_run _ _ _ _ _ w (ScoreProtocol.score_main_follows fuel))
    as (q' & Hsteps & _).
  eapply ScoreProtocol.steps_ascending. exact Hsteps.
Qed.

(** X7.  When [PlatformerGame.update] returns, the score has not
    decreased, it is at least ten times the player's height truncated,
    the platforms and the camera offset are unchanged, and the game time
    has grown by the delta time; and a game whose player is within a
    jump of the ground and whose score is between 0 and 28 (as a new
    game is) is such a game afterwards. *)
Theorem X7_game_update_keeps_the_game_sound :
  forall (W : Type) (host : Host W) (delta_time : Q) (game : PlatformerGame.t)
         (s s' : state W) (game' : PlatformerGame.t),
    PlatformerGame.update delta_time game s = (Ret game', s') ->
    (PlatformerGame.score game <= PlatformerGame.score game')%Z /\
    (py_int (Vector3.y (Player.position (PlatformerGame.player game')) * 10)
     <= PlatformerGame.score game')%Z /\
    PlatformerGame.platforms game' = PlatformerGame.platforms game /\
    PlatformerGame.camera_offset game' = PlatformerGame.camera_offset game /\
    PlatformerGame.game_time game' = PlatformerGame.game_time game + delta_time /\
    (game_sound game -> game_sound game').
Proof.
  intros W host dt game s s' game' Hup.
  destruct (game_update_returns _ _ _ _ _ _ _ Hup)
    as (keys & Hplayer & Hscore & Hplat & Hcam & Htime).
  split; [rewrite Hscore; lia|].
  split; [rewrite Hscore; lia|].
  split; [exact Hplat|]. split; [exact Hcam|]. split; [exact Htime|].
  intros Hsound. eapply game_update_sound; eassumption.
Qed.

(** ** Monitors as protocols *)

(** A monitor read as a protocol: the steps it accepts. *)
Definition monitor_step {S : Type} (mstep : S -> event -> option S)
           (q : S) (e : event) (q' : S) : Prop :=
  mstep q e = Some q'.

Lemma monitor_steps_accepted : forall S (mstep : S -> event -> option S) q h q',
  steps (monitor_step mstep) q h q' -> accepted mstep q h = true.
Proof.
  intros S mstep q h q' Hsteps.
  apply (steps_accepted (monitor_step mstep) S mstep eq) with (q := q) (q' := q');
    [|exact Hsteps | reflexivity].
  intros p e p' m Hst ->. exists p'. split; [exact Hst | reflexivity].
Qed.

(** ** Frames on screen *)

(** Where the graphics object stands: outside a frame, inside one, or
    with a frame ended and not yet presented. *)
Inductive bracket : Type := Outside | Inside | Closed.

Definition is_drawing (c : gfx_cmd) : bool :=
  match c with
  | clear _ _ _ _ | draw_cube _ _ _ | draw_text _ _ _ _ => true
  | _ => false
  end.

(** A frame is begun outside a frame, drawn into while it is open, ended
    while it is open and presented once it is ended. *)
Definition frame_step (b : bracket) (e : event) : option bracket :=
  match e with
  | Gfx begin_frame =>
      match b with
      | Outside => Some Inside
      | _ => None
      end
  | Gfx end_frame =>
      match b with
      | Inside => Some Closed
      | _ => None
      end
  | Gfx present =>
      match b with
      | Closed => Some Outside
      | _ => None
      end
  | Gfx c =>
      if is_drawing c
      then match b with
           | Inside => Some Inside
           | _ => None
           end
      else Some b
  | _ => Some b
  end.

Definition frames_well_bracketed (h : list event) : bool :=
  accepted frame_step Outside h.

Definition not_graphics (e : event) : bool :=
  match e with
  | Gfx _ => false
  | _ => true
  end.

Lemma frame_step_not_graphics : forall b e,
  not_graphics e = true -> monitor_step frame_step b e b.
Proof. intros b e He. destruct e; try discriminate; reflexivity. Qed.

Section FrameRefinement.
Context {W : Type} `{Host W}.

Import PlatformerMain.

Lemma frame_render_platforms : forall ps,
  follows (monitor_step frame_step) Inside (PlatformerGame.render_platforms ps)
          (fun _ b => b = Inside).
Proof.
  induction ps as [|p ps IH]; simpl.
  - apply follows_ret. reflexivity.
  - unfold Platform.render, gfx.
    eapply follows_bind;
      [ apply follows_call; intros; eexists; reflexivity
      | | | ].
    + intros u b Hst. after_step Hst. exact IH.
    + intros e b Hst. exact Hst.
    + intros b Hst. exact Hst.
Qed.

Lemma frame_render : forall g,
  follows (monitor_step frame_step) Inside (PlatformerGame.render g)
          (fun _ b => b = Inside).
Proof.
  intros g.
  unfold PlatformerGame.render, PlatformerGame.render_ui, Player.render,
    get_graphics, gfx.
  run_call ltac:(reflexivity); try reflexivity.
  run_call ltac:(reflexivity); try reflexivity.
  eapply follows_bind; [apply frame_render_platforms | | auto | auto].
  intros u b ->.
  run_call ltac:(reflexivity); try reflexivity.
  run_call ltac:(reflexivity); try reflexivity.
  run_call ltac:(reflexivity); try reflexivity.
  run_call ltac:(reflexivity); try reflexivity.
  eapply follows_weaken; [apply follows_call; intros; eexists; reflexivity|].
  intros [r| |] b Hst; simpl in Hst; [after_step Hst; reflexivity | | ];
    exact Hst.
Qed.

Lemma frame_main_body : forall clock game,
  follows (monitor_step frame_step) Outside (main_body clock game)
          (returns (fun _ b => b = Outside)).
Proof.
  intros clock game. unfold main_body, get_graphics, gfx.
  run_call ltac:(reflexivity); try exact I.
  run_emit ltac:(reflexivity).
  eapply follows_bind;
    [ apply (only_logs_follows _ _ _ _ not_graphics);
      [exact frame_step_not_graphics|];
      unfold PlatformerGame.update; logs_only
    | intros ? ? -> | intros; exact I | intros; exact I ].
  run_call ltac:(reflexivity); try exact I.
  run_call ltac:(reflexivity); try exact I.
  run_emit ltac:(reflexivity).
  eapply follows_bind; [apply frame_render | | intros; exact I | intros; exact I].
  intros u b ->.
  run_call ltac:(reflexivity); try exact I.
  run_call ltac:(reflexivity); try exact I.
  run_call ltac:(reflexivity); try exact I.
  apply follows_ret. reflexivity.
Qed.

Lemma frame_main_loop : forall fuel clock game,
  follows (monitor_step frame_step) Outside (main_loop fuel clock game)
          (returns (fun _ b => b = Outside)).
Proof.
  induction fuel as [|fuel IH]; intros clock game; simpl.
  - apply follows_diverge. exact I.
  - run_call ltac:(reflexivity); try exact I.
    destruct a.
    + eapply follows_bind;
        [apply frame_main_body | | intros; exact I | intros; exact I].
      intros [c g'] b Hb. simpl in Hb. subst b. apply IH.
    + apply follows_ret. reflexivity.
Qed.

Lemma frame_main : forall fuel,
  follows (monitor_step frame_step) Outside (main fuel) (fun _ _ => True).
Proof.
  intros fuel. unfold main, print.
  run_emit ltac:(reflexivity).
  run_call ltac:(reflexivity); try exact I.
  run_call ltac:(reflexivity); try exact I.
  destruct a1; simpl.
  - run_emit ltac:(reflexivity).
    run_emit ltac:(reflexivity).
    run_call ltac:(reflexivity); try exact I.
    eapply follows_bind with (mid := fun _ _ => True); try (intros; exact I).
    + eapply follows_try_except with (mid := fun _ _ => True);
        try (intros; exact I).
      * eapply follows_bind;
          [apply frame_main_loop | | intros; exact I | intros; exact I].
        intros r b _. apply follows_ret. exact I.
      * intros e b _. destruct (is_KeyboardInterrupt e); [|exact I].
        eapply follows_last_emit; [reflexivity | exact I].
    + intros u b _.
      run_call ltac:(reflexivity); try exact I.
      eapply follows_last_emit; [reflexivity | exact I].
  - run_emit ltac:(reflexivity).
    apply follows_ret. exact I.
Qed.

End FrameRefinement.

Example bracket_monitor_rejects_drawing_outside :
  frames_well_bracketed [Gfx (clear 0 0 0 1); Gfx begin_frame] = false.
Proof. reflexivity. Qed.

Example bracket_monitor_rejects_early_present :
  frames_well_bracketed [Gfx begin_frame; Gfx present] = false.
Proof. reflexivity. Qed.

(** X8.  In every run of the platformer's [main], on any host and
    whatever interrupts it: a frame is begun only outside a frame, every
    clear, cube and text is drawn inside an open frame, a frame is ended
    only while open and presented only once ended. *)
Theorem X8_frames_are_well_bracketed :
  forall (W : Type) (host : Host W) (fuel : nat) (w : W),
    frames_well_bracketed (history_of (run_from (PlatformerMain.main fuel) w))
    = true.
Proof.
  intros W host fuel w.
  destruct (follows_run _ _ _ _ _ w (frame_main fuel)) as (b & Hsteps & _).
  eapply monitor_steps_accepted. exact Hsteps.
Qed.

Lemma monitor_steps_scan : forall S (mstep : S -> event -> option S) q h q',
  steps (monitor_step mstep) q h q' -> scan mstep q h = Some q'.
Proof.
  intros S mstep q h q' Hsteps.
  induction Hsteps as [q|q e q1 h q2 Hst Hsteps IH]; simpl; [reflexivity|].
  unfold monitor_step in Hst. rewrite Hst. exact IH.
Qed.

Lemma only_logs_follows_at : forall W (host : Host W) P
                                    (step : P -> event -> P -> Prop)
                                    (ok : event -> bool) A (m : M W A) q,
  (forall e, ok e = true -> step q e q) ->
  only_logs ok m ->
  follows step q m (fun _ q' => q' = q).
Proof.
  intros W host P step ok A m q Hstep Hm s.
  destruct (Hm s) as (evs & Ht & Hall).
  exists evs, q. repeat split; [exact Ht|].
  clear Ht. induction evs as [|e evs IH]; [constructor|].
  simpl in Hall. apply andb_prop in Hall. destruct Hall as [He Hall].
  econstructor; [apply Hstep; exact He | apply IH; exact Hall].
Qed.

(** ** The engine's life *)

(** The engine as the loops' own calls leave it: not initialised yet,
    up, refused (initialisation answered [False]) or shut down. *)
Inductive engine_phase : Type := Unstarted | Up | Refusing | Down.

Definition uses_engine (e : event) : bool :=
  match e with
  | IsRunning _ | DeltaTime _ | GetInput | GetGraphics | Gfx _ => true
  | _ => false
  end.

(** The engine is initialised once, used only while it is up, and shut
    down once, while it is up. *)
Definition life_step (q : engine_phase) (e : event) : option engine_phase :=
  match e with
  | EngineInit ok =>
      match q with
      | Unstarted => Some (if ok then Up else Refusing)
      | _ => None
      end
  | EngineShutdown =>
      match q with
      | Up => Some Down
      | _ => None
      end
  | _ =>
      if uses_engine e
      then match q with
           | Up => Some Up
           | _ => None
           end
      else Some q
  end.

Definition leaves_engine_alone (e : event) : bool :=
  match e with
  | EngineInit _ | EngineShutdown => false
  | _ => negb (uses_engine e)
  end.

Lemma life_step_alone : forall q e,
  leaves_engine_alone e = true -> monitor_step life_step q e q.
Proof. intros q e He. destruct e; try discriminate; reflexivity. Qed.

Definition may_use_engine (e : event) : bool :=
  match e with
  | EngineInit _ | EngineShutdown => false
  | _ => true
  end.

Lemma life_step_up : forall e,
  may_use_engine e = true -> monitor_step life_step Up e Up.
Proof. intros e He. destruct e; try discriminate; reflexivity. Qed.

Section LifeRefinement.
Context {W : Type} `{Host W}.

Lemma logs_main_render_platforms : forall ps,
  only_logs may_use_engine (PlatformerGame.render_platforms ps).
Proof.
  induction ps as [|p ps IH]; simpl.
  - apply only_logs_ret.
  - apply only_logs_bind; [|intros _; exact IH].
    unfold Platform.render, gfx. logs_only.
Qed.

Lemma logs_main_body : forall clock game,
  only_logs may_use_engine (PlatformerMain.main_body clock game).
Proof.
  intros clock game.
  unfold PlatformerMain.main_body, PlatformerGame.update,
    PlatformerGame.render, PlatformerGame.render_ui, Player.render,
    get_graphics, gfx.
  repeat first
    [ apply logs_main_render_platforms
    | apply only_logs_ret
    | apply only_logs_emit; reflexivity
    | apply only_logs_call; intros; reflexivity
    | apply only_logs_bind; [|intros] ].
Qed.

Lemma logs_main_loop : forall fuel clock game,
  only_logs may_use_engine (PlatformerMain.main_loop fuel clock game).
Proof.
  induction fuel as [|fuel IH]; intros clock game; simpl.
  - apply only_logs_diverge.
  - apply only_logs_bind; [apply only_logs_call; intros; reflexivity|].
    intros [|]; [|apply only_logs_ret].
    apply only_logs_bind; [apply logs_main_body | intros r; apply IH].
Qed.

Lemma life_main : forall fuel,
  follows (monitor_step life_step) Unstarted (PlatformerMain.main fuel)
          (returns (fun _ q => q = Refusing \/ q = Down)).
Proof.
  intros fuel. unfold PlatformerMain.main, print.
  run_emit ltac:(reflexivity).
  run_call ltac:(reflexivity); try exact I.
  run_call ltac:(reflexivity); try exact I.
  destruct a1; simpl.
  - run_emit ltac:(reflexivity).
    run_emit ltac:(reflexivity).
    run_call ltac:(reflexivity); try exact I.
    eapply follows_bind with (mid := returns (fun _ q => q = Up));
      try (intros; exact I).
    + eapply follows_try_except with (mid := fun _ q => q = Up).
      * apply (only_logs_follows_at _ _ _ _ may_use_engine);
          [exact life_step_up|].
        apply only_logs_bind; [apply logs_main_loop | intros; apply only_logs_ret].
      * intros r q Hq. exact Hq.
      * intros e q ->. destruct (is_KeyboardInterrupt e); [|exact I].
        eapply follows_last_emit; reflexivity.
      * intros; exact I.
    + intros u q Hq. simpl in Hq. subst q.
      run_call ltac:(reflexivity); try exact I.
      eapply follows_last_emit; [reflexivity|]. simpl. auto.
  - run_emit ltac:(reflexivity).
    apply follows_ret. simpl. auto.
Qed.

Variable code : GameApplication.Overrides W.

Lemma logs_scene_update_objects : forall dt objs,
  only_logs may_use_engine (GameApplication.scene_update_objects code dt objs).
Proof.
  intros dt. induction objs as [|obj objs IH]; simpl.
  - apply only_logs_ret.
  - apply only_logs_bind.
    + destruct (GameObject.active obj); logs_only.
    + intros obj'. apply only_logs_bind; [exact IH | intros; apply only_logs_ret].
Qed.

Lemma logs_scene_render_objects : forall objs,
  only_logs may_use_engine (GameApplication.scene_render_objects code objs).
Proof.
  induction objs as [|obj objs IH]; simpl.
  - apply only_logs_ret.
  - apply only_logs_bind.
    + destruct (GameObject.active obj); logs_only.
    + intros obj'. apply only_logs_bind; [exact IH | intros; apply only_logs_ret].
Qed.

Lemma logs_run_body : forall self,
  only_logs may_use_engine (GameApplication.run_body code self).
Proof.
  intros self.
  unfold GameApplication.run_body, GameApplication.update_current_scene,
    GameApplication.render_current_scene, GameApplication.custom_update,
    GameApplication.custom_render, GameApplication.scene_update,
    GameApplication.scene_render, get_graphics.
  apply only_logs_bind; [apply only_logs_call; intros; reflexivity | intros dt].
  apply only_logs_bind.
  { destruct (GameApplication.current_scene self); [|apply only_logs_ret].
    apply only_logs_bind; [|intros; apply only_logs_ret].
    apply only_logs_bind;
      [apply logs_scene_update_objects | intros; apply only_logs_ret]. }
  intros self1. apply only_logs_bind; [logs_only | intros self2].
  apply only_logs_bind.
  { destruct (GameApplication.current_scene self2); [|apply only_logs_ret].
    apply only_logs_bind; [apply only_logs_call; intros; reflexivity | intros].
    apply only_logs_bind; [|intros; apply only_logs_ret].
    apply only_logs_bind;
      [apply logs_scene_render_objects | intros; apply only_logs_ret]. }
  intros self3. logs_only.
Qed.

Lemma logs_run_loop : forall fuel self,
  only_logs may_use_engine (GameApplication.run_loop code fuel self).
Proof.
  induction fuel as [|fuel IH]; intros self; simpl.
  - apply only_logs_diverge.
  - apply only_logs_bind; [apply only_logs_call; intros; reflexivity|].
    intros b. destruct (b && GameApplication.running self);
      [|apply only_logs_ret].
    apply only_logs_bind; [apply logs_run_body | intros; apply IH].
Qed.

Lemma life_initialize : forall self,
  follows (monitor_step life_step) Unstarted (GameApplication.initialize self)
          (returns (fun r q =>
                      q = Up /\ fst r = true /\
                      GameApplication.running (snd r) = true)).
Proof.
  intros self. unfold GameApplication.initialize, get_graphics, gfx.
  run_call ltac:(reflexivity); try exact I.
  destruct a; simpl.
  - do 5 (run_call ltac:(reflexivity); try exact I).
    apply follows_ret. simpl. auto.
  - apply follows_raise. exact I.
Qed.

Lemma life_shutdown : forall self,
  follows (monitor_step life_step) Up (GameApplication.shutdown self)
          (returns (fun self' q =>
                      q = Down /\ GameApplication.running self' = false)).
Proof.
  intros self. unfold GameApplication.shutdown, print.
  run_call ltac:(reflexivity); try exact I.
  run_emit ltac:(reflexivity).
  apply follows_ret. simpl. auto.
Qed.

Lemma life_run : forall fuel self,
  follows (monitor_step life_step)
          (if GameApplication.running self then Up else Unstarted)
          (GameApplication.run code fuel self)
          (returns (fun r q =>
                      q = Down /\ fst r = true /\
                      GameApplication.running (snd r) = false)).
Proof.
  intros fuel self. unfold GameApplication.run, GameApplication.run_entry, print.
  eapply follows_bind with
    (mid := returns (fun r q => q = Up /\ fst r = true));
    try (intros; exact I).
  - destruct (GameApplication.running self); simpl.
    + apply follows_ret. simpl. auto.
    + eapply follows_weaken; [apply life_initialize|].
      intros [r| |] q; simpl; tauto.
  - intros [ok self1] q [-> Hok]. simpl in Hok. subst ok. simpl.
    run_emit ltac:(reflexivity).
    eapply follows_bind;
      [ apply (only_logs_follows_at _ _ _ _ may_use_engine);
        [exact life_step_up | apply logs_run_loop]
      | intros self2 q -> | intros; exact I | intros; exact I ].
    eapply follows_bind; [apply life_shutdown | | intros; exact I | intros; exact I].
    intros self3 q [-> Hstop]. apply follows_ret. simpl. auto.
Qed.

End LifeRefinement.

(** X9.  In every run of the platformer's [main], on any host: the
    engine is initialised at most once, it is asked whether it runs, for
    its input and for its graphics only after an initialisation that
    succeeded and before the shutdown, and it is shut down at most once,
    only after such an initialisation.  When [main] returns, either the
    initialisation was refused or the engine has been shut down (also
    after a keyboard interrupt). *)
Theorem X9_main_uses_the_engine_between_initialize_and_shutdown :
  forall (W : Type) (host : Host W) (fuel : nat) (w : W),
    let r := run_from (PlatformerMain.main fuel) w in
    accepted life_step Unstarted (history_of r) = true /\
    match result_of r with
    | Ret _ =>
        scan life_step Unstarted (history_of r) = Some Refusing \/
        scan life_step Unstarted (history_of r) = Some Down
    | _ => True
    end.
Proof.
  intros W host fuel w r.
  destruct (follows_run _ _ _ _ _ w (life_main fuel)) as (q & Hsteps & Hpost).
  fold r in Hsteps, Hpost. split.
  - eapply monitor_steps_accepted. exact Hsteps.
  - apply monitor_steps_scan in Hsteps. rewrite Hsteps.
    destruct (result_of r); simpl in *; [|exact I|exact I].
    destruct Hpost as [-> | ->]; auto.
Qed.


(** [self.initialize()] followed by [self.run()]. *)
Definition initialize_then_run {W} `{Host W}
           (code : GameApplication.Overrides W) (fuel : nat)
           (self : GameApplication.t) : M W (bool * GameApplication.t) :=
  r <- GameApplication.initialize self ;;
  GameApplication.run code fuel (snd r).

Lemma life_initialize_then_run :
  forall W (host : Host W) (code : GameApplication.Overrides W) fuel self,
    follows (monitor_step life_step) Unstarted
            (initialize_then_run code fuel self)
            (returns (fun r q => q = Down /\ fst r = true /\
                                 GameApplication.running (snd r) = false)).
Proof.
  intros W host code fuel self. unfold initialize_then_run.
  eapply follows_bind;
    [apply life_initialize | | intros; exact I | intros; exact I].
  intros [ok self1] q (-> & _ & Hrun). simpl in *.
  pose proof (life_run code fuel self1) as Hfollows.
  rewrite Hrun in Hfollows. exact Hfollows.
Qed.

(** X11.  Calling [initialize] and then [run] on the application that
    [initialize] leaves initialises the engine once only: [run] sees
    [running] set and goes straight to its loop.  When the pair returns,
    the engine has been shut down and [running] is [False]. *)
Theorem X11_initialize_then_run_initialises_once :
  forall (W : Type) (host : Host W) (code : GameApplication.Overrides W)
         (fuel : nat) (self : GameApplication.t) (w : W),
    let r := run_from (initialize_then_run code fuel self) w in
    accepted life_step Unstarted (history_of r) = true /\
    match result_of r with
    | Ret (ok, self') =>
        ok = true /\ GameApplication.running self' = false /\
        scan life_step Unstarted (history_of r) = Some Down
    | _ => True
    end.
Proof.
  intros W host code fuel self w r.
  destruct (follows_run _ _ _ _ _ w
              (life_initialize_then_run W host code fuel self))
    as (q & Hsteps & Hpost).
  fold r in Hsteps, Hpost. split.
  - eapply monitor_steps_accepted. exact Hsteps.
  - apply monitor_steps_scan in Hsteps. rewrite Hsteps.
    destruct (result_of r) as [[ok self']| |]; simpl in *; [|exact I|exact I].
    destruct Hpost as (-> & Hok & Hstop). auto.
Qed.

(** ** The delta time handed to the callbacks *)

(** The delta time the engine reported in the current iteration, if it
    has been read.  An iteration begins when the loop asks the engine
    whether it runs; the delta time is read at most once in an
    iteration, and an update callback is called only after it has been
    read, with that value. *)
Definition delta_step (cur : option Q) (e : event) : option (option Q) :=
  match e with
  | IsRunning _ => Some None
  | DeltaTime dt =>
      match cur with
      | None => Some (Some dt)
      | Some _ => None
      end
  | Update _ dt =>
      match cur with
      | Some d => if Qeq_bool d dt then Some cur else None
      | None => None
      end
  | _ => Some cur
  end.

Definition hands_delta (dt : Q) (e : event) : bool :=
  match e with
  | IsRunning _ | DeltaTime _ => false
  | Update _ d => Qeq_bool dt d
  | _ => true
  end.

Lemma hands_delta_step : forall dt e,
  hands_delta dt e = true -> monitor_step delta_step (Some dt) e (Some dt).
Proof.
  intros dt e He. unfold monitor_step.
  destruct e; try discriminate; try reflexivity.
  simpl in *. rewrite He. reflexivity.
Qed.

Definition before_delta (e : event) : bool :=
  match e with
  | IsRunning _ | DeltaTime _ | Update _ _ => false
  | _ => true
  end.

Lemma before_delta_step : forall q e,
  before_delta e = true -> monitor_step delta_step q e q.
Proof. intros q e He. destruct e; try discriminate; reflexivity. Qed.

Section DeltaRefinement.
Context {W : Type} `{Host W}.
Variable code : GameApplication.Overrides W.

Lemma delta_scene_update_objects : forall dt objs,
  only_logs (hands_delta dt)
            (GameApplication.scene_update_objects code dt objs).
Proof.
  intros dt. induction objs as [|obj objs IH]; simpl.
  - apply only_logs_ret.
  - apply only_logs_bind.
    + destruct (GameObject.active obj); [|apply only_logs_ret].
      apply only_logs_bind; [|intros; apply only_logs_invoke].
      apply only_logs_emit. simpl. apply Qeq_bool_refl.
    + intros obj'. apply only_logs_bind; [exact IH | intros; apply only_logs_ret].
Qed.

Lemma delta_scene_render_objects : forall dt objs,
  only_logs (hands_delta dt) (GameApplication.scene_render_objects code objs).
Proof.
  intros dt. induction objs as [|obj objs IH]; simpl.
  - apply only_logs_ret.
  - apply only_logs_bind.
    + destruct (GameObject.active obj); logs_only.
    + intros obj'. apply only_logs_bind; [exact IH | intros; apply only_logs_ret].
Qed.

Lemma delta_run_body : forall self,
  follows (monitor_step delta_step) None (GameApplication.run_body code self)
          (fun _ _ => True).
Proof.
  intros self. unfold GameApplication.run_body.
  run_call ltac:(reflexivity); try exact I.
  eapply follows_weaken;
    [apply (only_logs_follows_at _ _ _ _ (hands_delta a));
     [apply hands_delta_step|] | intros; exact I].
  unfold GameApplication.update_current_scene,
    GameApplication.render_current_scene, GameApplication.custom_update,
    GameApplication.custom_render, GameApplication.scene_update,
    GameApplication.scene_render, get_graphics.
  apply only_logs_bind.
  { destruct (GameApplication.current_scene self); [|apply only_logs_ret].
    apply only_logs_bind; [|intros; apply only_logs_ret].
    apply only_logs_bind;
      [apply delta_scene_update_objects | intros; apply only_logs_ret]. }
  intros self1. apply only_logs_bind.
  { apply only_logs_bind; [|intros; apply only_logs_invoke].
    apply only_logs_emit. simpl. apply Qeq_bool_refl. }
  intros self2. apply only_logs_bind.
  { destruct (GameApplication.current_scene self2); [|apply only_logs_ret].
    apply only_logs_bind; [apply only_logs_call; intros; reflexivity | intros].
    apply only_logs_bind; [|intros; apply only_logs_ret].
    apply only_logs_bind;
      [apply delta_scene_render_objects | intros; apply only_logs_ret]. }
  intros self3. logs_only.
Qed.

Lemma delta_run_loop : forall fuel self q,
  follows (monitor_step delta_step) q (GameApplication.run_loop code fuel self)
          (fun _ _ => True).
Proof.
  induction fuel as [|fuel IH]; intros self q; simpl.
  - apply follows_diverge. exact I.
  - run_call ltac:(reflexivity); try exact I.
    destruct (a && GameApplication.running self);
      [|apply follows_ret; exact I].
    eapply follows_bind;
      [apply delta_run_body | intros; apply IH | intros; exact I
      | intros; exact I].
Qed.

Lemma delta_run : forall fuel self,
  follows (monitor_step delta_step) None (GameApplication.run code fuel self)
          (fun _ _ => True).
Proof.
  intros fuel self. unfold GameApplication.run.
  eapply follows_bind with (mid := fun _ q => q = None);
    try (intros; exact I).
  - apply (only_logs_follows_at _ _ _ _ before_delta);
      [intros e; apply before_delta_step|].
    unfold GameApplication.run_entry, GameApplication.initialize,
      get_graphics, gfx.
    destruct (GameApplication.running self); simpl; [apply only_logs_ret|].
    apply only_logs_bind; [apply only_logs_call; intros; reflexivity|].
    intros [|]; simpl; logs_only.
  - intros [ok self1] q ->. simpl.
    destruct ok; simpl; [|apply follows_ret; exact I].
    eapply follows_bind with (mid := fun _ q => q = None);
      try (intros; exact I).
    { apply (only_logs_follows_at _ _ _ _ before_delta);
        [intros e; apply before_delta_step|].
      unfold print. logs_only. }
    intros u q ->.
    eapply follows_bind;
      [apply delta_run_loop | | intros; exact I | intros; exact I].
    intros self2 q _.
    eapply follows_weaken;
      [apply (only_logs_follows_at _ _ _ _ before_delta);
       [intros e; apply before_delta_step|] | intros; exact I].
    unfold GameApplication.shutdown, print. logs_only.
Qed.

End DeltaRefinement.

(** X12.  In every run of [GameApplication.run], with any overriding
    methods and on any host: each iteration reads the engine's delta
    time at most once, no update callback is called before it is read,
    and every update callback of the iteration (of the scene's objects
    and of the application) receives exactly that value. *)
Theorem X12_update_callbacks_receive_the_engine_delta_time :
  forall (W : Type) (host : Host W) (code : GameApplication.Overrides W)
         (fuel : nat) (self : GameApplication.t) (w : W),
    accepted delta_step None
             (history_of (run_from (GameApplication.run code fuel self) w))
    = true.
Proof.
  intros W host code fuel self w.
  destruct (follows_run _ _ _ _ _ w (delta_run code fuel self))
    as (q & Hsteps & _).
  eapply monitor_steps_accepted. exact Hsteps.
Qed.

Example delta_monitor_rejects_another_value :
  accepted delta_step None
           [IsRunning true; DeltaTime (1 # 60); Update TheApp (1 # 30)] = false.
Proof. reflexivity. Qed.

Example life_monitor_rejects_use_after_shutdown :
  accepted life_step Unstarted
           [EngineInit true; EngineShutdown; GetGraphics] = false.
Proof. reflexivity. Qed.

(** ** The objects of a scene *)

(** A protocol that plays a fixed list of events, one after the other. *)
Inductive plays : list event -> event -> list event -> Prop :=
| plays_next : forall e rest, plays (e :: rest) e rest.

Lemma steps_plays : forall q h q', steps plays q h q' -> q = h ++ q'.
Proof.
  intros q h q' Hsteps.
  induction Hsteps as [q|q e q1 h q2 Hst Hsteps IH]; [reflexivity|].
  inversion Hst; subst. reflexivity.
Qed.

(** The update calls [Scene.update] makes on a list of objects: one for
    each active object, in the order of the list. *)
Definition object_updates (delta_time : Q) (objs : list GameObject.t)
  : list event :=
  map (fun obj => Update (SceneObject (GameObject.name obj)) delta_time)
      (filter GameObject.active objs).

Definition object_renders (objs : list GameObject.t) : list event :=
  map (fun obj => Render (SceneObject (GameObject.name obj)))
      (filter GameObject.active objs).

Section SceneCalls.
Context {W : Type} `{Host W}.
Variable code : GameApplication.Overrides W.

Lemma plays_scene_update_objects : forall dt objs rest,
  follows plays (object_updates dt objs ++ rest)
          (GameApplication.scene_update_objects code dt objs)
          (returns (fun _ q => q = rest)).
Proof.
  intros dt. induction objs as [|obj objs IH]; intros rest; simpl.
  - apply follows_ret. reflexivity.
  - unfold object_updates. simpl.
    destruct (GameObject.active obj); simpl.
    + eapply follows_bind with
        (mid := returns (fun _ q => q = object_updates dt objs ++ rest));
        try (intros; exact I).
      * eapply follows_bind;
          [ apply follows_emit; eexists; constructor
          | intros u q Hst; simpl in Hst; inversion Hst; subst
          | intros ? ? []
          | intros ? [] ].
        eapply follows_weaken; [apply follows_invoke|].
        intros [r| |] q ->; simpl; auto.
      * intros obj' q ->.
        eapply follows_bind; [apply IH | | intros; exact I | intros; exact I].
        intros objs' q ->. apply follows_ret. reflexivity.
    + eapply follows_bind with
        (mid := returns (fun _ q => q = object_updates dt objs ++ rest));
        try (intros; exact I).
      * apply follows_ret. reflexivity.
      * intros obj' q ->.
        eapply follows_bind; [apply IH | | intros; exact I | intros; exact I].
        intros objs' q ->. apply follows_ret. reflexivity.
Qed.

Lemma plays_scene_render_objects : forall objs rest,
  follows plays (object_renders objs ++ rest)
          (GameApplication.scene_render_objects code objs)
          (returns (fun _ q => q = rest)).
Proof.
  induction objs as [|obj objs IH]; intros rest; simpl.
  - apply follows_ret. reflexivity.
  - unfold object_renders. simpl.
    destruct (GameObject.active obj); simpl.
    + eapply follows_bind with
        (mid := returns (fun _ q => q = object_renders objs ++ rest));
        try (intros; exact I).
      * eapply follows_bind;
          [ apply follows_emit; eexists; constructor
          | intros u q Hst; simpl in Hst; inversion Hst; subst
          | intros ? ? []
          | intros ? [] ].
        eapply follows_weaken; [apply follows_invoke|].
        intros [r| |] q ->; simpl; auto.
      * intros obj' q ->.
        eapply follows_bind; [apply IH | | intros; exact I | intros; exact I].
        intros objs' q ->. apply follows_ret. reflexivity.
    + eapply follows_bind with
        (mid := returns (fun _ q => q = object_renders objs ++ rest));
        try (intros; exact I).
      * apply follows_ret. reflexivity.
      * intros obj' q ->.
        eapply follows_bind; [apply IH | | intros; exact I | intros; exact I].
        intros objs' q ->. apply follows_ret. reflexivity.
Qed.

Lemma plays_scene_update : forall dt scene,
  follows plays (object_updates dt (Scene.objects scene))
          (GameApplication.scene_update code dt scene)
          (returns (fun _ q => q = [])).
Proof.
  intros dt scene. unfold GameApplication.scene_update.
  eapply follows_bind; [ | | intros; exact I | intros; exact I].
  - pose proof (plays_scene_update_objects dt (Scene.objects scene) [])
      as Hobjs.
    rewrite app_nil_r in Hobjs. exact Hobjs.
  - intros objs q Hq. apply follows_ret. exact Hq.
Qed.

Lemma plays_scene_render : forall scene,
  follows plays (object_renders (Scene.objects scene))
          (GameApplication.scene_render code scene)
          (returns (fun _ q => q = [])).
Proof.
  intros scene. unfold GameApplication.scene_render.
  eapply follows_bind; [ | | intros; exact I | intros; exact I].
  - pose proof (plays_scene_render_objects (Scene.objects scene) []) as Hobjs.
    rewrite app_nil_r in Hobjs. exact Hobjs.
  - intros objs q Hq. apply follows_ret. exact Hq.
Qed.

End SceneCalls.

(** X13.  [Scene.update] calls [update] on the active objects of the
    scene only, in the order in which the scene holds them, each with
    the delta time it was given: what it has called when it stops is a
    beginning of that list, and the whole list when it returns.
    [Scene.render] does the same with [render].  (The callbacks act on
    their own object, as [Overrides] has them.) *)
Theorem X13_scene_calls_the_active_objects_in_order :
  forall (W : Type) (host : Host W) (code : GameApplication.Overrides W)
         (delta_time : Q) (scene : Scene.t) (w : W),
    let u := run_from (GameApplication.scene_update code delta_time scene) w in
    let r := run_from (GameApplication.scene_render code scene) w in
    (exists rest,
        object_updates delta_time (Scene.objects scene) = history_of u ++ rest /\
        match result_of u with Ret _ => rest = [] | _ => True end) /\
    (exists rest,
        object_renders (Scene.objects scene) = history_of r ++ rest /\
        match result_of r with Ret _ => rest = [] | _ => True end).
Proof.
  intros W host code dt scene w u r. split.
  - destruct (follows_run _ _ _ _ _ w (plays_scene_update code dt scene))
      as (rest & Hsteps & Hpost).
    exists rest. split; [apply steps_plays; exact Hsteps|].
    fold u in Hpost. destruct (result_of u); simpl in *; auto.
  - destruct (follows_run _ _ _ _ _ w (plays_scene_render code scene))
      as (rest & Hsteps & Hpost).
    exists rest. split; [apply steps_plays; exact Hsteps|].
    fold r in Hpost. destruct (result_of r); simpl in *; auto.
Qed.


(** ** What the demo does and how it fails *)


Section DemoEvents.
Context {W : Type} `{Host W}.






(** The two lines of the [ImportError] handler. *)
Definition import_error_lines : list message :=
  [ImportErrorLine ImportError;
   Text "Make sure the engine is built and the Python bindings are available."].


End DemoEvents.


(** X16.  When [import nexus_engine] raises [ImportError], the demo
    prints the two lines of its first handler and leaves with
    [SystemExit(1)]: it prints no banner, constructs no engine and reads
    no clock. *)
Theorem X16_demo_without_the_module :
  forall (W : Type) (host : Host W) (max_duration frame_delay : Q)
         (fuel : nat) (w w' : W),
    import_nexus_engine w = (Raise ImportError, w') ->
    run_from (BasicDemo.basic_demo_with max_duration frame_delay fuel) w =
    (Raise (SystemExit 1), mkState w' (map Print import_error_lines)).
Proof.
  intros W host D delay fuel w w' Himport.
  unfold run_from, BasicDemo.basic_demo_with, try_except,
    BasicDemo.demo_script_with, bind, call. simpl.
  rewrite Himport. reflexivity.
Qed.

(** A machine on which the engine has not been built: the import fails. *)
Module Unbuilt.

#[global] Instance host : Host unit := {
  import_nexus_engine w := (Raise ImportError, w);
  engine_new w := (Ret tt, w);
  engine_initialize w := (Ret true, w);
  engine_is_running w := (Ret false, w);
  engine_get_delta_time w := (Ret 0, w);
  engine_shutdown w := (Ret tt, w);
  engine_get_input w := (Ret Scripted.no_keys, w);
  engine_get_graphics w := (Ret tt, w);
  graphics_call _ w := (Ret tt, w);
  time_time w := (Ret 0, w);
  time_sleep _ w := (Ret tt, w)
}.

End Unbuilt.

(** ** The FPS line *)

(** The number of iterations begun, and whether the iteration just begun
    still owes its FPS line. *)
Definition fps_step (q : Z * bool) (e : event) : option (Z * bool) :=
  let (n, owed) := q in
  match e with
  | Tick _ _ =>
      if owed then None
      else Some ((n + 1)%Z, ((n + 1) mod 60 =? 0)%Z)
  | Print (FpsLine fps _ frame) =>
      if owed && (frame =? n)%Z && Qle_bool 0 fps
      then Some (n, false)
      else None
  | _ => if owed then None else Some q
  end.

Definition not_counting (e : event) : bool :=
  match e with
  | Tick _ _ | Print (FpsLine _ _ _) => false
  | _ => true
  end.

Lemma fps_step_other : forall n e,
  not_counting e = true -> monitor_step fps_step (n, false) e (n, false).
Proof.
  intros n e He. unfold monitor_step.
  destruct e as [| | | | | | | | | | |m| | |]; try discriminate; try reflexivity.
  destruct m; try discriminate; reflexivity.
Qed.

Lemma fps_step_line : forall n fps t,
  0 <= fps -> monitor_step fps_step (n, true) (Print (FpsLine fps t n)) (n, false).
Proof.
  intros n fps t Hfps. unfold monitor_step. simpl.
  rewrite Z.eqb_refl. apply Qle_bool_iff in Hfps. rewrite Hfps. reflexivity.
Qed.

Lemma fps_shown_nonneg : forall delta_time,
  0 <= (if Qlt_bool 0 delta_time then 1 / delta_time else 0).
Proof.
  intros dt. destruct (Qlt_bool 0 dt) eqn:Hdt; [|lra].
  apply Qlt_bool_true in Hdt.
  apply Qlt_le_weak. unfold Qdiv. rewrite Qmult_1_l.
  apply Qinv_lt_0_compat. exact Hdt.
Qed.

Section FpsRefinement.
Context {W : Type} `{Host W}.

Lemma not_counting_print_lines : forall ls,
  only_logs (W:=W) not_counting (print_lines ls).
Proof.
  induction ls as [|l ls IH]; simpl.
  - apply only_logs_ret.
  - apply only_logs_bind;
      [apply only_logs_emit; reflexivity | intros _; exact IH].
Qed.

Definition fps_post {A} (count : A -> Z) (o : outcome A) (q : Z * bool) : Prop :=
  snd q = false /\
  match o with
  | Ret a => fst q = count a
  | _ => True
  end.

Lemma fps_demo_body : forall max_duration frame_delay l,
  follows (monitor_step fps_step) (BasicDemo.frame_count l, false)
          (BasicDemo.demo_body max_duration frame_delay l)
          (fps_post (fun r => BasicDemo.frame_count (snd r))).
Proof.
  intros D delay l. unfold BasicDemo.demo_body, print.
  set (n := BasicDemo.frame_count l).
  eapply follows_bind with (mid := fun _ q => q = (n, false)).
  - apply (only_logs_follows_at _ _ _ _ not_counting);
      [intros e; apply fps_step_other|].
    apply only_logs_call; intros; reflexivity.
  - intros t q ->.
    eapply follows_bind with
      (mid := always (fun _ q => q = ((n + 1)%Z, ((n + 1) mod 60 =? 0)%Z)));
      [ eapply follows_last_emit; reflexivity
      | intros ? q Hq; simpl in Hq; subst q
      | intros e q []
      | intros q [] ].
    eapply follows_bind with
      (mid := always (fun _ q => q = ((n + 1)%Z, false)));
      [ | intros ? q Hq; simpl in Hq; subst q | intros e q [] | intros q [] ].
    + destruct ((n + 1) mod 60 =? 0)%Z.
      * eapply follows_last_emit;
          [apply fps_step_line, fps_shown_nonneg | reflexivity].
      * apply follows_ret. reflexivity.
    + destruct (Qlt_bool D _).
      * eapply follows_bind with
          (mid := always (fun _ q => q = ((n + 1)%Z, false)));
          [ eapply follows_last_emit; reflexivity
          | intros ? q Hq; simpl in Hq; subst q
          | intros e q []
          | intros q [] ].
        apply follows_ret. split; reflexivity.
      * eapply follows_bind with (mid := fun _ q => q = ((n + 1)%Z, false)).
        -- apply (only_logs_follows_at _ _ _ _ not_counting);
             [intros e; apply fps_step_other|].
           apply only_logs_call; intros; reflexivity.
        -- intros _ q ->. apply follows_ret. split; reflexivity.
        -- intros e q ->. split; [reflexivity | exact I].
        -- intros q ->. split; [reflexivity | exact I].
  - intros e q ->. split; [reflexivity | exact I].
  - intros q ->. split; [reflexivity | exact I].
Qed.

Lemma fps_demo_loop : forall max_duration frame_delay fuel l,
  follows (monitor_step fps_step) (BasicDemo.frame_count l, false)
          (BasicDemo.demo_loop_with max_duration frame_delay fuel l)
          (fun _ q => snd q = false).
Proof.
  intros D delay. induction fuel as [|fuel IH]; intros l; simpl.
  - apply follows_diverge. reflexivity.
  - eapply follows_bind; [apply fps_demo_body | | |].
    + intros [stop l'] [n owed] [Howed Hn]. simpl in *. subst.
      destruct stop; [apply follows_ret; reflexivity | apply IH].
    + intros e q [Howed _]. exact Howed.
    + intros q [Howed _]. exact Howed.
Qed.

Lemma fps_basic_demo : forall max_duration frame_delay fuel,
  follows (monitor_step fps_step) (0%Z, false)
          (BasicDemo.basic_demo_with max_duration frame_delay fuel)
          (fun _ _ => True).
Proof.
  intros D delay fuel. unfold BasicDemo.basic_demo_with.
  eapply follows_try_except with (mid := fun _ q => snd q = false).
  - unfold BasicDemo.demo_script_with.
    eapply follows_bind with (mid := fun _ q => q = (0%Z, false)).
    + apply (only_logs_follows_at _ _ _ _ not_counting);
        [intros e; apply fps_step_other|].
      apply only_logs_call; intros; reflexivity.
    + intros _ q ->.
      eapply follows_bind with (mid := fun _ q => q = (0%Z, false)).
      * apply (only_logs_follows_at _ _ _ _ not_counting);
          [intros e; apply fps_step_other|].
        unfold print. logs_only.
      * intros _ q ->.
        eapply follows_bind with (mid := fun _ q => q = (0%Z, false)).
        -- apply (only_logs_follows_at _ _ _ _ not_counting);
             [intros e; apply fps_step_other|].
           unfold print. logs_only.
        -- intros _ q ->.
           eapply follows_bind with (mid := fun _ q => q = (0%Z, false)).
           ++ apply (only_logs_follows_at _ _ _ _ not_counting);
                [intros e; apply fps_step_other|].
              apply only_logs_call; intros; reflexivity.
           ++ intros _ q ->.
              eapply follows_bind with (mid := fun _ q => q = (0%Z, false)).
              ** apply (only_logs_follows_at _ _ _ _ not_counting);
                   [intros e; apply fps_step_other|].
                 apply not_counting_print_lines.
              ** intros _ q ->.
                 eapply follows_bind with (mid := fun _ q => q = (0%Z, false)).
                 --- apply (only_logs_follows_at _ _ _ _ not_counting);
                       [intros e; apply fps_step_other|].
                     apply only_logs_call; intros; reflexivity.
                 --- intros t q ->.
                     apply (fps_demo_loop D delay fuel
                              (BasicDemo.mkLocals t 0 0%Z)).
                 --- intros e q ->. reflexivity.
                 --- intros q ->. reflexivity.
              ** intros e q ->. reflexivity.
              ** intros q ->. reflexivity.
           ++ intros e q ->. reflexivity.
           ++ intros q ->. reflexivity.
        -- intros e q ->. reflexivity.
        -- intros q ->. reflexivity.
      * intros e q ->. reflexivity.
      * intros q ->. reflexivity.
    + intros e q ->. reflexivity.
    + intros q ->. reflexivity.
  - intros; exact I.
  - intros e [n owed] Howed. simpl in Howed. subst owed.
    destruct (is_Exception e); [|exact I].
    eapply follows_weaken;
      [apply (only_logs_follows_at _ _ _ _ not_counting);
       [intros e'; apply fps_step_other|] | intros; exact I].
    unfold BasicDemo.demo_handlers, print. destruct e; logs_only.
  - intros; exact I.
Qed.

End FpsRefinement.

(** X17.  In every run of the demo, on any host and for any limit and
    delay: an FPS line is printed in exactly the iterations whose number
    is a multiple of 60, straight after the iteration has been counted
    and before it tests the limit, sleeps or reads the clock again; the
    line shows the number of that iteration and a frame rate that is
    not negative (0 when the delta time is not positive: the division is
    guarded). *)
Theorem X17_fps_line_every_60th_iteration :
  forall (W : Type) (host : Host W) (max_duration frame_delay : Q)
         (fuel : nat) (w : W),
    accepted fps_step (0%Z, false)
             (history_of
                (run_from
                   (BasicDemo.basic_demo_with max_duration frame_delay fuel) w))
    = true.
Proof.
  intros W host D delay fuel w.
  destruct (follows_run _ _ _ _ _ w (fps_basic_demo D delay fuel))
    as (q & Hsteps & _).
  eapply monitor_steps_accepted. exact Hsteps.
Qed.

Example fps_monitor_rejects_a_missing_line :
  accepted fps_step (59%Z, false) [Tick 1 1; Sleep 1] = false.
Proof. reflexivity. Qed.

Example fps_monitor_rejects_an_early_line :
  accepted fps_step (0%Z, false) [Tick 1 1; Print (FpsLine 1 1 1)] = false.
Proof. reflexivity. Qed.

(** ** Flights end *)

(** Whether the player is on the ground after one of the updates of
    [frames]. *)
Fixpoint lands (frames : list (Q * InputManager)) (p : Player.t) : bool :=
  match frames with
  | [] => false
  | (delta_time, keys) :: rest =>
      let p' := Player.update delta_time keys p in
      Player.on_ground p' || lands rest p'
  end.

Definition flight_length (frames : list (Q * InputManager)) : Q :=
  inject_Z (Z.of_nat (List.length frames)).

Lemma flight_length_nil : flight_length [] == 0.
Proof. reflexivity. Qed.

Lemma flight_length_cons : forall f frames,
  flight_length (f :: frames) == flight_length frames + 1.
Proof.
  intros f frames. unfold flight_length. simpl List.length.
  rewrite Nat2Z.inj_succ, <- Z.add_1_r, inject_Z_plus. reflexivity.
Qed.

(** A player in the air after an update is above the ground. *)
Lemma update_in_the_air : forall dt keys p,
  Player.on_ground (Player.update dt keys p) = false ->
  Player.update dt keys p = Player.before_collision dt keys p /\
  0 < Vector3.y (Player.position (Player.update dt keys p)).
Proof.
  intros dt keys p Hair.
  unfold Player.update, Player.ground_collision in *.
  destruct (Player.touches_ground (Player.before_collision dt keys p))
    eqn:Htouch; [simpl in Hair; discriminate|].
  split; [reflexivity|].
  unfold Player.touches_ground in Htouch.
  destruct (Qlt_le_dec 0 (Vector3.y (Player.position
                                       (Player.before_collision dt keys p))))
    as [Hlt|Hle]; [exact Hlt|].
  apply Qle_bool_iff in Hle. congruence.
Qed.

Lemma in_the_air_speed : forall p,
  within_jump p -> 0 < Vector3.y (Player.position p) ->
  - (12) < Vector3.y (Player.velocity p) /\ Vector3.y (Player.velocity p) < 12.
Proof.
  intros p (_ & _ & _ & Hreach) Hy. unfold reach in Hreach.
  split; nra.
Qed.

Lemma flight_is_short : forall delta frames p,
  within_jump p ->
  Player.on_ground p = false ->
  0 < Vector3.y (Player.position p) ->
  Forall (fun f => delta <= fst f) frames ->
  lands frames p = false ->
  25 * delta * flight_length frames < Vector3.y (Player.velocity p) + 12.
Proof.
  intros delta. induction frames as [|[dt keys] frames IH];
    intros p Hp Hair Hy Hall Hlands.
  - destruct (in_the_air_speed p Hp Hy) as [Hlo _].
    rewrite flight_length_nil. lra.
  - simpl in Hlands. apply orb_false_iff in Hlands.
    destruct Hlands as [Hair' Hlands].
    inversion Hall as [|f fs Hdt Hall']; subst. simpl in Hdt.
    destruct (update_in_the_air dt keys p Hair') as [Hsame Hy'].
    pose proof (update_within_jump dt keys p Hp) as Hp'.
    specialize (IH _ Hp' Hair' Hy' Hall' Hlands).
    destruct (before_collision_vertical dt keys p) as (Hv & _ & _).
    cbv zeta in Hv. rewrite Hair, andb_false_r in Hv.
    rewrite Hsame, Hv in IH.
    rewrite flight_length_cons. lra.
Qed.

(** X18.  A flight ends.  When every frame lasts at least [delta] > 0,
    a player that has been moved by [Player.update] only, whatever keys
    are held, is on the ground after at least one of any
    [1 + 24 / (25 * delta)] updates in a row (59 updates at 60 frames a
    second): gravity takes 25 * delta from the vertical velocity in each
    frame, and that velocity stays between -12 and 12 in the air. *)
Theorem X18_the_player_lands :
  forall (delta : Q) (history frames : list (Q * InputManager)),
    0 < delta ->
    Forall (fun f => delta <= fst f) frames ->
    24 + 25 * delta <= 25 * delta * flight_length frames ->
    lands frames (play history Player.init) = true.
Proof.
  intros delta history frames Hdelta Hall Hlong.
  pose proof (play_within_jump history Player.init init_within_jump) as Hp.
  destruct frames as [|[dt keys] frames].
  - rewrite flight_length_nil in Hlong. lra.
  - destruct (lands ((dt, keys) :: frames) (play history Player.init))
      eqn:Hlands; [reflexivity | exfalso].
    simpl in Hlands. apply orb_false_iff in Hlands.
    destruct Hlands as [Hair Hlands].
    inversion Hall as [|f fs Hdt Hall']; subst.
    destruct (update_in_the_air dt keys _ Hair) as [_ Hy].
    pose proof (update_within_jump dt keys _ Hp) as Hp'.
    destruct (in_the_air_speed _ Hp' Hy) as [_ Hhi].
    pose proof (flight_is_short delta frames _ Hp' Hair Hy Hall' Hlands)
      as Hshort.
    rewrite flight_length_cons in Hlong. lra.
Qed.

(** ** The argument of [time.sleep] *)

(** [time.sleep] raises [ValueError] on a negative argument. *)
Definition sleeps_well (e : event) : bool :=
  match e with
  | Sleep d => Qle_bool 0 d
  | _ => true
  end.

Lemma py_max_lower : forall a b, a <= py_max a b.
Proof.
  intros a b. unfold py_max. destruct (Qlt_bool a b) eqn:Hab; [|lra].
  apply Qlt_bool_true in Hab. lra.
Qed.

Section SleepArguments.
Context {W : Type} `{Host W}.

Lemma sleeps_render_platforms : forall ps,
  only_logs sleeps_well (PlatformerGame.render_platforms ps).
Proof.
  induction ps as [|p ps IH]; simpl.
  - apply only_logs_ret.
  - apply only_logs_bind; [|intros _; exact IH].
    unfold Platform.render, gfx. logs_only.
Qed.

Lemma sleeps_main_body : forall clock game,
  only_logs sleeps_well (PlatformerMain.main_body clock game).
Proof.
  intros clock game.
  unfold PlatformerMain.main_body, PlatformerGame.update,
    PlatformerGame.render, PlatformerGame.render_ui, Player.render,
    get_graphics, gfx.
  repeat first
    [ apply sleeps_render_platforms
    | apply only_logs_ret
    | apply only_logs_emit; reflexivity
    | apply only_logs_call; intros; reflexivity
    | apply only_logs_call; intros; simpl; apply Qle_bool_iff, py_max_lower
    | apply only_logs_bind; [|intros] ].
Qed.

Lemma sleeps_main_loop : forall fuel clock game,
  only_logs sleeps_well (PlatformerMain.main_loop fuel clock game).
Proof.
  induction fuel as [|fuel IH]; intros clock game; simpl.
  - apply only_logs_diverge.
  - apply only_logs_bind; [apply only_logs_call; intros; reflexivity|].
    intros [|]; [|apply only_logs_ret].
    apply only_logs_bind; [apply sleeps_main_body | intros r; apply IH].
Qed.

Lemma sleeps_main : forall fuel,
  only_logs sleeps_well (PlatformerMain.main fuel).
Proof.
  intros fuel. unfold PlatformerMain.main, print.
  apply only_logs_bind; [apply only_logs_emit; reflexivity | intros _].
  apply only_logs_bind; [apply only_logs_call; intros; reflexivity | intros _].
  apply only_logs_bind; [apply only_logs_call; intros; reflexivity | intros ok].
  destruct ok; simpl; [|logs_only].
  apply only_logs_bind; [apply only_logs_emit; reflexivity | intros _].
  apply only_logs_bind; [apply only_logs_emit; reflexivity | intros _].
  apply only_logs_bind; [apply only_logs_call; intros; reflexivity | intros t].
  apply only_logs_bind; [|intros _; logs_only].
  apply only_logs_try_except; [|intros e; apply only_logs_emit; reflexivity].
  apply only_logs_bind; [apply sleeps_main_loop | intros; apply only_logs_ret].
Qed.

End SleepArguments.

(** X19.  In every run of the platformer's [main], on any host,
    [time.sleep] is never called with a negative argument, however long
    a frame took and even when the clock steps backward: the argument is
    [max(0, 1/60 - delta_time)]. *)
Theorem X19_main_never_sleeps_a_negative_time :
  forall (W : Type) (host : Host W) (fuel : nat) (w : W),
    forallb sleeps_well (history_of (run_from (PlatformerMain.main fuel) w))
    = true.
Proof.
  intros W host fuel w.
  apply (only_logs_run W host). apply sleeps_main.
Qed.

(** ** The theorems at work *)

(** A keyboard with the jump key pressed and nothing held. *)
Definition jump_keys : InputManager :=
  mkInput (fun _ => false) (fun key => (key =? ord_space)%Z).

(** A keyboard with D held. *)
Definition right_keys : InputManager :=
  mkInput (fun key => (key =? ord_D)%Z) (fun _ => false).

(** A new player after its first frame: on the ground, at rest. *)
Definition resting_player : Player.t :=
  Player.update (1 # 60) Scripted.no_keys Player.init.

Lemma X1_witness :
  Player.update (1 # 60) jump_keys Player.init =
  Player.update (1 # 60) (without_jump jump_keys) Player.init.
Proof.
  apply (X1_no_jump_in_the_air (1 # 60) jump_keys Player.init).
  reflexivity.
Defined.

Lemma X2_witness :
  let p := play [(1 # 60, Scripted.no_keys); (1 # 60, jump_keys)] Player.init in
  Player.on_ground p = false /\
  let p' := play [(1 # 60, Scripted.no_keys)] Player.init in
  Vector3.y (Player.position p') = 0 /\ Vector3.y (Player.velocity p') = 0.
Proof.
  intros p. split; [reflexivity|].
  apply (X2_on_ground_means_at_rest [(1 # 60, Scripted.no_keys)]).
  reflexivity.
Defined.

Lemma X4_witness :
  let self' := Player.update (1 # 60) right_keys Player.init in
  Vector3.x (Player.velocity self') = 8 /\
  Vector3.x (Player.position self') = 0 + 8 * (1 # 60).
Proof.
  intros self'.
  destruct (X4_horizontal_speed_is_bounded (1 # 60) right_keys Player.init)
    as (_ & _ & _ & Hv & Hx).
  - vm_compute. discriminate.
  - vm_compute. discriminate.
  - vm_compute. discriminate.
  - split; [exact Hv|]. cbv zeta in Hx, Hv. fold self' in Hx, Hv.
    rewrite Hx, Hv. reflexivity.
Defined.

Lemma X5_witness :
  Player.on_ground (Player.update (1 # 60) jump_keys resting_player) = false /\
  Player.on_ground (Player.update (12 # 25) jump_keys resting_player) = true /\
  Player.on_ground (Player.update (1 # 60) Scripted.no_keys resting_player)
  = true.
Proof.
  split; [|split].
  - destruct (X5_jump_from_rest (1 # 60) jump_keys resting_player)
      as [Hjump _].
    + reflexivity.
    + reflexivity.
    + reflexivity.
    + apply Hjump; [reflexivity|]. split; reflexivity.
  - reflexivity.
  - destruct (X5_jump_from_rest (1 # 60) Scripted.no_keys resting_player)
      as [_ Hstay].
    + reflexivity.
    + reflexivity.
    + reflexivity.
    + apply Hstay; reflexivity.
Defined.

Lemma X7_witness :
  exists game' s',
    PlatformerGame.update (1 # 60) PlatformerGame.init (mkState test_world [])
    = (Ret game', s') /\
    (PlatformerGame.score PlatformerGame.init <= PlatformerGame.score game')%Z /\
    game_sound game'.
Proof.
  do 2 eexists. split; [reflexivity|].
  destruct (X7_game_update_keeps_the_game_sound
              Scripted.world Scripted.host (1 # 60) PlatformerGame.init
              (mkState test_world []) _ _ eq_refl)
    as (Hscore & _ & _ & _ & _ & Hsound).
  split; [exact Hscore | apply Hsound, init_game_sound].
Defined.

Lemma X16_witness :
  run_from (W:=unit) (BasicDemo.basic_demo 5) tt =
  (Raise (SystemExit 1), mkState tt (map Print import_error_lines)).
Proof.
  apply (X16_demo_without_the_module unit Unbuilt.host 30 (16 # 1000) 5 tt tt).
  reflexivity.
Defined.

Lemma X18_witness :
  lands (repeat (1 # 60, jump_keys) 59)
        (play [(1 # 60, jump_keys); (1 # 60, jump_keys)] Player.init) = true.
Proof.
  apply (X18_the_player_lands (1 # 60)).
  - reflexivity.
  - apply Forall_forall. intros f Hin. apply repeat_spec in Hin. subst f.
    apply Qle_refl.
  - vm_compute. discriminate.
Defined.

(** The jump of [X18_witness] is a real flight: the player is in the air
    after the second frame and for the 55 frames that follow. *)
Example jump_at_60_frames_a_second :
  let p := play [(1 # 60, jump_keys); (1 # 60, jump_keys)] Player.init in
  Player.on_ground p = false /\
  lands (repeat (1 # 60, jump_keys) 55) p = false /\
  lands (repeat (1 # 60, jump_keys) 56) p = true.
Proof. vm_compute. auto. Qed.
